(** * ENI video pipeline: timing allocation, compositor arithmetic,
      progress broadcasting and the pipeline coordinator

    Shallow embedding of
      - [src/server/services/videoService.ts]: [calculateOptimalTimings],
        [generateAudioFile], [generateAllImages], [getMediaDuration],
        [createVideoWithFFmpeg], [generateVideo], and the asynchronous part
        of the [/api/generate-video] handler of [registerRoutes];
      - [src/server/index.ts]: the WebSocket session registry
        ([videoSessions]), its ['message'] and ['close'] handlers and
        [broadcastProgress];
      - [src/server/storage.ts]: the conversation, message and API key
        methods of [MemStorage];
      - the route helpers of [registerRoutes]: [verifyAdminPassword],
        [getNextApiKey], the admin routes, [/api/chat] and the choice of
        the audio URL in [/api/generate-tts];
      - [src/server/services/githubAI.ts]: when [getChatCompletion]
        throws.

    Modelling conventions.
      - JavaScript numbers are exact rationals ([Q]); the binary rounding
        of IEEE doubles, [NaN] and the infinities are not modelled (a
        division by zero yields 0 in [Q]).  [Math.round] is
        [floor (x + 1/2)], [Math.max] and [Math.min] are [Qmax] and [Qmin].
      - JavaScript strings are [string]: sequences of code units below
        256 (Latin-1 texts), one [ascii] per code unit.
      - The [Map] of sessions is a [gmap]; a [Set] of sockets is an
        insertion-ordered duplicate-free list, which is the order
        JavaScript iterates it in.
      - The external operations of a run (HTTP calls, ffmpeg, ffprobe,
        [renameSync]) are replaced by a record of their outcomes; the
        files on disk, the registry and the two variables shared by the
        [try] and [finally] blocks of [generateVideo] form an explicit
        state; every call of [broadcastProgress] made by a run is logged.
      - The [Map]s of the storage are lists of entries in insertion
        order; [Array.prototype.sort] is a stable insertion sort, which
        is what it computes for a comparator that orders consistently.
        Integers read by [parseInt] and written by [toString] are exact
        ([Z]), as JavaScript has them below 2^53.  Fresh UUIDs, dates,
        initialisation vectors and the cipher are arguments.
      - A run is executed in one piece: messages of sockets that arrive
        while a run waits for an external operation are not interleaved
        with it.  Time stamps and the human-readable message texts of
        progress events are left out. *)

From Stdlib Require Import Ascii QArith Qround Qminmax Qabs Lqa Lia Sorted.
From stdpp Require Import gmap strings list pretty.

(** ** JavaScript string primitives used by the source *)

Module JsString.

Definition codeUnit (c : ascii) : nat := nat_of_ascii c.

(** The class [\s] restricted to code units below 256:
    TAB, LF, VT, FF, CR, SPACE and NO-BREAK SPACE. *)
Definition isWhiteSpace (c : ascii) : bool :=
  let n := codeUnit c in
  (Nat.leb 9 n && Nat.leb n 13) || Nat.eqb n 32 || Nat.eqb n 160.

(** Number of maximal runs of white space in [s]; [inRun] tells whether
    the previous code unit was white space. *)
Fixpoint whiteSpaceRuns (inRun : bool) (s : string) : nat :=
  match s with
  | EmptyString => 0
  | String c rest =>
      if isWhiteSpace c
      then (if inRun then 0 else 1) + whiteSpaceRuns true rest
      else whiteSpaceRuns false rest
  end.

(** [s.split(/\s+/).length]: one more piece than separators. *)
Definition splitWhiteSpaceLength (s : string) : nat :=
  S (whiteSpaceRuns false s).

(** The class [[.,!?;:]]. *)
Definition isPunctuation (c : ascii) : bool :=
  let n := codeUnit c in
  Nat.eqb n 46 || Nat.eqb n 44 || Nat.eqb n 33 ||
  Nat.eqb n 63 || Nat.eqb n 59 || Nat.eqb n 58.

(** [(s.match(/[.,!?;:]/g) || []).length]. *)
Fixpoint matchPunctuationLength (s : string) : nat :=
  match s with
  | EmptyString => 0
  | String c rest =>
      (if isPunctuation c then 1 else 0) + matchPunctuationLength rest
  end.

Definition lowerCodeUnit (c : ascii) : ascii :=
  let n := codeUnit c in
  if (Nat.leb 65 n && Nat.leb n 90)
     || (Nat.leb 192 n && Nat.leb n 222 && negb (Nat.eqb n 215))
  then ascii_of_nat (n + 32)
  else c.

(** [s.toLowerCase()]. *)
Fixpoint toLowerCase (s : string) : string :=
  match s with
  | EmptyString => EmptyString
  | String c rest => String (lowerCodeUnit c) (toLowerCase rest)
  end.

(** [s.trim()]: on code units below 256 the stripped class is [\s]. *)
Fixpoint trimStart (s : string) : string :=
  match s with
  | EmptyString => EmptyString
  | String c rest => if isWhiteSpace c then trimStart rest else s
  end.

Definition trimEnd (s : string) : string :=
  String.rev (trimStart (String.rev s)).

Definition trim (s : string) : string := trimEnd (trimStart s).

(** [s.includes(needle)]. *)
Fixpoint includes (s needle : string) : bool :=
  String.prefix needle s ||
  match s with
  | EmptyString => false
  | String _ rest => includes rest needle
  end.

End JsString.

(** ** Rational arithmetic helpers *)

Module JsNumber.

Local Open Scope Q_scope.

(** [Math.round]: round half up. *)
Definition round (x : Q) : Q := inject_Z (Qfloor (x + 0.5)).

(** [Math.round(x * 10) / 10]. *)
Definition round1 (x : Q) : Q := round (x * 10) / 10.

Definition ltb (x y : Q) : bool := negb (Qle_bool y x).

(** [l.reduce((sum, t) => sum + t, 0)]. *)
Definition sum (l : list Q) : Q := fold_left Qplus l 0.

Definition ofNat (n : nat) : Q := inject_Z (Z.of_nat n).

End JsNumber.

(** ** [calculateOptimalTimings] *)

Module Timing.

Import JsString JsNumber.
Local Open Scope Q_scope.

Definition MIN_TARGET_DURATION : Q := 25.
Definition MAX_TARGET_DURATION : Q := 40.

Definition wordCount (segment : string) : nat := splitWhiteSpaceLength segment.
Definition charCount (segment : string) : nat := String.length segment.
Definition punctuationCount (segment : string) : nat :=
  matchPunctuationLength segment.

(** Condition of the first [if] of the loop body. *)
Definition hasEmphasis (segment : string) : bool :=
  includes segment "!"
  || includes (toLowerCase segment) "important"
  || includes (toLowerCase segment) "critical"
  || includes (toLowerCase segment) "key".

(** Condition of the second [if] of the loop body. *)
Definition hasCallToAction (segment : string) : bool :=
  includes (toLowerCase segment) "call to action"
  || includes (toLowerCase segment) "contact"
  || includes (toLowerCase segment) "today"
  || includes (toLowerCase segment) "now".

Definition baseWeight (segment : string) : Q :=
  ofNat (wordCount segment) * 0.7
  + ofNat (charCount segment) * 0.02
  + ofNat (punctuationCount segment) * 0.5.

(** The value pushed on [segmentWeights] for one segment: the body of the
    first loop, statement by statement. *)
Definition segmentWeight (segment : string) : Q :=
  let weight := baseWeight segment in
  let weight := if hasEmphasis segment then weight * 1.2 else weight in
  let weight := if hasCallToAction segment then weight * 1.1 else weight in
  let weight := Qmax weight 2 in
  weight.

(** The first loop: [segmentWeights] and [totalWeight]. *)
Definition weighSegments (voiceoverSegments : list string) : list Q * Q :=
  fold_left
    (fun acc segment =>
       let weight := segmentWeight segment in
       (fst acc ++ [weight], snd acc + weight))
    voiceoverSegments ([], 0).

Definition avgWordsPerSegment (voiceoverSegments : list string) : Q :=
  fold_left (fun sum segment => sum + ofNat (wordCount segment))
            voiceoverSegments 0
  / ofNat (length voiceoverSegments).

Definition complexityRatio (voiceoverSegments : list string) : Q :=
  Qmin (avgWordsPerSegment voiceoverSegments / 15) 1.

Definition targetDuration (voiceoverSegments : list string) : Q :=
  MIN_TARGET_DURATION
  + (MAX_TARGET_DURATION - MIN_TARGET_DURATION)
    * complexityRatio voiceoverSegments.

(** One iteration of the second loop. *)
Definition clampedTiming (totalWeight target weight : Q) : Q :=
  let proportionalDuration := (weight / totalWeight) * target in
  let finalDuration := Qmax 2.5 (Qmin 12 proportionalDuration) in
  round1 finalDuration.

(** [timings] as it stands after the second loop. *)
Definition initialTimings (voiceoverSegments : list string) : list Q :=
  let (segmentWeights, totalWeight) := weighSegments voiceoverSegments in
  map (clampedTiming totalWeight (targetDuration voiceoverSegments))
      segmentWeights.

(** Condition of the final [if]. *)
Definition outsideTargetRange (actualTotal : Q) : bool :=
  ltb actualTotal MIN_TARGET_DURATION || ltb MAX_TARGET_DURATION actualTotal.

Definition rescaleTiming (adjustmentFactor t : Q) : Q :=
  round (t * adjustmentFactor * 10) / 10.

Definition calculateOptimalTimings (voiceoverSegments : list string)
  : list Q :=
  let timings := initialTimings voiceoverSegments in
  let actualTotal := sum timings in
  if outsideTargetRange actualTotal
  then
    let adjustmentFactor := targetDuration voiceoverSegments / actualTotal in
    map (rescaleTiming adjustmentFactor) timings
  else timings.

(** The weight as the specification words it: the floor of 2 first, the
    boosts afterwards. *)
Definition specWeight (segment : string) : Q :=
  Qmax (baseWeight segment) 2
  * (if hasEmphasis segment then 1.2 else 1)
  * (if hasCallToAction segment then 1.1 else 1).

(** The band of a segment timing, as a proposition and as a test. *)
Definition inBand (t : Q) : Prop := 2.5 <= t /\ t <= 12.





End Timing.


(** ** The compositor: duration reconciliation and the filter graph of
     [createVideoWithFFmpeg] *)

Module Compositor.

Import JsNumber.
Local Open Scope Q_scope.

(** [imagePaths.length > 1 ? 1.0 : 0]. *)
Definition fadeDuration (imageCount : nat) : Q :=
  if (1 <? imageCount)%nat then 1.0 else 0.

(** [Math.max(0, imagePaths.length - 1)]. *)
Definition numCrossfades (imageCount : nat) : Q :=
  Qmax 0 (ofNat imageCount - 1).

Definition totalCrossfadeDuration (imageCount : nat) : Q :=
  numCrossfades imageCount * fadeDuration imageCount.

Definition rawVideoDuration (timings : list Q) : Q := sum timings.

Definition calculatedVideoDuration (imageCount : nat) (timings : list Q)
  : Q :=
  rawVideoDuration timings - totalCrossfadeDuration imageCount.

(** [Math.min(40, Math.max(25, audioDuration))]. *)
Definition targetDuration (audioDuration : Q) : Q :=
  Qmin 40 (Qmax 25 audioDuration).

Definition targetRawDuration (imageCount : nat) (audioDuration : Q) : Q :=
  targetDuration audioDuration + totalCrossfadeDuration imageCount.

(** Condition of the [if] that rescales. *)
Definition needsAdjustment (imageCount : nat) (audioDuration : Q)
           (timings : list Q) : bool :=
  ltb 0.5 (Qabs (audioDuration - calculatedVideoDuration imageCount timings)).

Definition scaleFactor (imageCount : nat) (audioDuration : Q)
           (timings : list Q) : Q :=
  targetRawDuration imageCount audioDuration / rawVideoDuration timings.

(** [adjustedTimings] as it stands before the encoder arguments are
    built. *)
Definition adjustedTimings (imageCount : nat) (audioDuration : Q)
           (timings : list Q) : list Q :=
  if needsAdjustment imageCount audioDuration timings
  then map (fun t => t * scaleFactor imageCount audioDuration timings)
           timings
  else timings.

(** The [-t] argument of every image input.  [adjustedTimings[i]] is
    [undefined] beyond the end of the list and [.toString()] then
    throws: [None]. *)
Definition imageInputDurations (imageCount : nat) (adjusted : list Q)
  : option (list Q) :=
  mapM (fun i => adjusted !! i) (seq 0 imageCount).

(** Stream labels of the filter graph: [[i:v]], [[vi]], [[fadei]] and
    [[outv]]. *)
Inductive Label :=
| InputVideo (i : nat)
| Scaled (i : nat)
| Fade (i : nat)
| OutV.

(** One filter chain of [filterComplex] (one [;]-separated piece).  The
    numbers are kept exact; their rendering by [toFixed(3)] is not
    modelled. *)
Inductive Filter :=
| ZoomTrim (input : Label) (totalFrames : Z) (duration : Q) (output : Label)
| Xfade (first second : Label) (duration offset : Q) (output : Label)
| Format (input output : Label).

(** Body of the per-image loop.  The index is in range whenever
    [imageInputDurations] succeeded, which the source requires first. *)
Definition zoomTrimFilter (adjusted : list Q) (i : nat) : Filter :=
  let duration := default 0 (adjusted !! i) in
  let totalFrames := Qfloor (duration * 30) in
  ZoomTrim (InputVideo i) totalFrames duration (Scaled i).

(** State of the transition loop: [transitionChain], [cumulativeOffset]
    and the filters appended so far. *)
Definition xfadeStep (adjusted : list Q) (fade : Q)
           (st : Label * Q * list Filter) (i : nat)
  : Label * Q * list Filter :=
  let '(transitionChain, cumulativeOffset, filterComplex) := st in
  let cumulativeOffset :=
    cumulativeOffset + (default 0 (adjusted !! (i - 1)%nat) - fade) in
  let fadeOffset := Qmax 0 cumulativeOffset in
  (Fade i, cumulativeOffset,
   filterComplex
   ++ [Xfade transitionChain (Scaled i) fade fadeOffset (Fade i)]).

Definition buildFilterComplex (imageCount : nat) (adjusted : list Q)
  : list Filter :=
  let filterComplex := map (zoomTrimFilter adjusted) (seq 0 imageCount) in
  if (1 <? imageCount)%nat
  then
    let '(transitionChain, _, filterComplex) :=
      fold_left (xfadeStep adjusted (fadeDuration imageCount))
                (seq 1 (imageCount - 1)) (Scaled 0, 0, filterComplex) in
    filterComplex ++ [Format transitionChain OutV]
  else filterComplex ++ [Format (Scaled 0) OutV].

(** The crossfade transitions of a filter graph, as (duration, offset). *)
Definition xfades (filterComplex : list Filter) : list (Q * Q) :=
  omap (fun f => match f with
                 | Xfade _ _ duration offset _ => Some (duration, offset)
                 | _ => None
                 end) filterComplex.

(** The filters the transition loop appends, listed directly. *)
Fixpoint xfadeFilters (adjusted : list Q) (fade : Q) (chain : Label)
         (cumulativeOffset : Q) (indices : list nat) : list Filter :=
  match indices with
  | [] => []
  | i :: rest =>
      let offset :=
        cumulativeOffset + (default 0 (adjusted !! (i - 1)%nat) - fade) in
      Xfade chain (Scaled i) fade (Qmax 0 offset) (Fade i)
      :: xfadeFilters adjusted fade (Fade i) offset rest
  end.

(** The offset of transition [i] as the specification words it: the sum
    of the durations of the segments before it, minus [i] crossfade
    durations, not below zero. *)
Definition specOffset (adjusted : list Q) (i : nat) : Q :=
  Qmax 0 (sum (take i adjusted) - ofNat i * 1).


End Compositor.

(** ** The session registry and [broadcastProgress] of [server/index.ts] *)

Module Broadcaster.

Local Open Scope Q_scope.

(** Identity of one WebSocket connection ([ws]). *)
Definition Socket := nat.

(** The optional fifth argument of [broadcastProgress]: the payload of
    the handler's completion broadcast, or of its error broadcast. *)
Inductive CompletionData :=
| VideoReady (duration : Q) (optimizedTimings : list Q)
| Failure (code message details : string).

(** The JSON object sent to the clients (time stamp and message text
    left out). *)
Record ProgressData := {
  type : string;
  sessionId : string;
  step : string;
  progress : Q;
  data : option CompletionData
}.

(** [step === 'completed' || step === 'error']. *)
Definition isTerminal (step : string) : bool :=
  String.eqb step "completed" || String.eqb step "error".

(** [Set.prototype.add] and [Set.prototype.delete] on an
    insertion-ordered set. *)
Definition setAdd (ws : Socket) (clients : list Socket) : list Socket :=
  if decide (ws ∈ clients) then clients else clients ++ [ws].

Definition setDelete (ws : Socket) (clients : list Socket) : list Socket :=
  filter (fun c => c ≠ ws) clients.

(** A parsed client message. *)
Record ClientMessage := {
  messageType : string;
  messageSessionId : string
}.

(** The ['message'] handler of a connection. *)
Definition onMessage (ws : Socket) (message : ClientMessage)
           (videoSessions : gmap string (list Socket))
  : gmap string (list Socket) :=
  if String.eqb (messageType message) "subscribe"
     && negb (String.eqb (messageSessionId message) "")
  then
    let videoSessions :=
      match videoSessions !! messageSessionId message with
      | Some _ => videoSessions
      | None => <[messageSessionId message := []]> videoSessions
      end in
    alter (setAdd ws) (messageSessionId message) videoSessions
  else videoSessions.

Definition subscribeMessage (sid : string) : ClientMessage :=
  {| messageType := "subscribe"; messageSessionId := sid |}.

(** The ['close'] handler of a connection. *)
Definition onClose (ws : Socket)
           (videoSessions : gmap string (list Socket))
  : gmap string (list Socket) :=
  omap (fun clients =>
          let clients := setDelete ws clients in
          if decide (length clients = 0%nat) then None else Some clients)
       videoSessions.

(** [broadcastProgress]: the new registry and the messages sent, in
    order.  [isOpen ws] stands for [ws.readyState === ws.OPEN]. *)
Definition broadcastProgress (isOpen : Socket -> bool)
           (sid stepName : string) (progressValue : Q)
           (completionData : option CompletionData)
           (videoSessions : gmap string (list Socket))
  : gmap string (list Socket) * list (Socket * ProgressData) :=
  match videoSessions !! sid with
  | Some clients =>
      let progressData :=
        {| type := if isTerminal stepName then stepName else "progress";
           sessionId := sid;
           step := stepName;
           progress := progressValue;
           data := completionData |} in
      let sent :=
        map (fun ws => (ws, progressData))
            (filter (fun ws => isOpen ws = true) clients) in
      (if isTerminal stepName
       then delete sid videoSessions
       else videoSessions,
       sent)
  | None => (videoSessions, [])
  end.

(** The handles registered under a session identifier. *)
Definition subscribers (sid : string)
           (videoSessions : gmap string (list Socket)) : list Socket :=
  default [] (videoSessions !! sid).

(** Registry states the three entry points can produce from the empty
    [Map]. *)
Inductive Reachable : gmap string (list Socket) -> Prop :=
| reach_empty : Reachable ∅
| reach_message ws message videoSessions :
    Reachable videoSessions ->
    Reachable (onMessage ws message videoSessions)
| reach_close ws videoSessions :
    Reachable videoSessions ->
    Reachable (onClose ws videoSessions)
| reach_broadcast isOpen sid stepName progressValue completionData
                  videoSessions :
    Reachable videoSessions ->
    Reachable (fst (broadcastProgress isOpen sid stepName progressValue
                                      completionData videoSessions)).

(** No record holds an empty set of handles. *)
Definition noEmptyRecord (videoSessions : gmap string (list Socket))
  : Prop :=
  forall sid clients, videoSessions !! sid = Some clients -> clients <> [].

(** The sealing property as the specification states it: once a terminal
    event was broadcast, a later subscription registers nothing. *)
Definition sealedAfterTerminal (isOpen : Socket -> bool) (sid : string)
           (ws : Socket) (videoSessions : gmap string (list Socket))
  : Prop :=
  subscribers sid
    (onMessage ws (subscribeMessage sid)
       (fst (broadcastProgress isOpen sid "completed" 100 None
                               videoSessions)))
  = [].

End Broadcaster.

(** ** The pipeline coordinator: [generateVideo] and the asynchronous part
     of the [/api/generate-video] handler *)

Module Pipeline.

Import JsString JsNumber Broadcaster.
Local Open Scope Q_scope.

(** *** Files *)

(** The files one run touches: [/tmp/voiceover_<now>.wav],
    [/tmp/image_<i>_<now>.png], [/tmp/video_<now>.mp4] and
    [public/videos/<uuid>.mp4]. *)
Inductive Path :=
| TmpAudio
| TmpImage (i : nat)
| TmpVideo
| PublicVideo.

#[global] Instance Path_eq_dec : EqDecision Path.
Proof. solve_decision. Defined.

#[global] Instance Path_countable : Countable Path.
Proof.
  refine (inj_countable'
    (fun p => match p with
              | TmpAudio => inl 0%nat
              | TmpVideo => inl 1%nat
              | PublicVideo => inl 2%nat
              | TmpImage i => inr i
              end)
    (fun x => match x with
              | inl 0%nat => TmpAudio
              | inl 1%nat => TmpVideo
              | inl _ => PublicVideo
              | inr i => TmpImage i
              end) _).
  by intros [].
Defined.

Definition isTemporary (p : Path) : bool :=
  match p with
  | PublicVideo => false
  | _ => true
  end.

(** *** Outcomes of the external operations of one run *)

Inductive TtsOutcome :=
| TtsHttpError (statusText : string)
| TtsNoAudioUrl
| TtsDownloadError (statusText : string)
| TtsOk.

Inductive ImageOutcome :=
| ImageHttpError (statusText : string)
| ImageNoUrl
| ImageDownloadError (statusText : string)
| ImageOk.

Inductive ProbeOutcome :=
| ProbeOk (seconds : Q)
| ProbeExit (code : Z)
| ProbeSpawnError (message : string).

Inductive FfmpegOutcome :=
| FfmpegClose (code : Z)
| FfmpegSpawnError (message : string)
| FfmpegTimeout.

Record Outcomes := {
  tts : TtsOutcome;
  image : nat -> ImageOutcome;
  audioProbe : ProbeOutcome;
  ffmpeg : FfmpegOutcome;
  (** whether the encoder left an output file behind *)
  ffmpegWroteOutput : bool;
  ffmpegStderr : string;
  (** the [time=] values parsed from the encoder's progress lines *)
  encodeTimes : list Q;
  videoProbe : ProbeOutcome;
  (** [None]: [renameSync] succeeds; [Some m]: it throws [m] *)
  renameError : option string;
  socketOpen : Socket -> bool
}.

(** *** State, results and the monad of a run *)

Record State := {
  files : gset Path;
  videoSessions : gmap string (list Socket);
  (** the [let] variables of [generateVideo] that its [finally] reads *)
  audioPath : option Path;
  imagePaths : list Path;
  (** [ffmpeg.kill('SIGKILL')] was called *)
  ffmpegKilled : bool
}.

(** One call of [broadcastProgress] and what it sent. *)
Record Publication := {
  pubSessionId : string;
  pubStep : string;
  pubProgress : Q;
  pubData : option CompletionData;
  pubSent : list (Socket * ProgressData)
}.

Inductive Result (A : Type) :=
| Return (a : A)
| Throw (message : string).
Arguments Return {A} a.
Arguments Throw {A} message.

Definition M (A : Type) : Type :=
  State -> Result A * State * list Publication.

#[global] Instance M_ret : MRet M :=
  fun A a st => (Return a, st, []).

#[global] Instance M_bind : MBind M :=
  fun A B k m st =>
    match m st with
    | (Return a, st1, out1) =>
        match k a st1 with
        | (r, st2, out2) => (r, st2, out1 ++ out2)
        end
    | (Throw e, st1, out1) => (Throw e, st1, out1)
    end.

Definition throw {A : Type} (message : string) : M A :=
  fun st => (Throw message, st, []).

Definition gets {A : Type} (f : State -> A) : M A :=
  fun st => (Return (f st), st, []).

Definition modify (f : State -> State) : M unit :=
  fun st => (Return tt, f st, []).

(** [try { body } catch (error) { handler error }]. *)
Definition tryCatch {A : Type} (body : M A) (handler : string -> M A)
  : M A :=
  fun st =>
    match body st with
    | (Return a, st1, out1) => (Return a, st1, out1)
    | (Throw e, st1, out1) =>
        match handler e st1 with
        | (r, st2, out2) => (r, st2, out1 ++ out2)
        end
    end.

(** [try { body } finally { finalizer }]: the finalizer always runs; the
    outcome of the body stands unless the finalizer throws. *)
Definition tryFinally {A : Type} (body : M A) (finalizer : M unit)
  : M A :=
  fun st =>
    match body st with
    | (r, st1, out1) =>
        match finalizer st1 with
        | (Return _, st2, out2) => (r, st2, out1 ++ out2)
        | (Throw e, st2, out2) => (Throw e, st2, out1 ++ out2)
        end
    end.

(** *** File system operations *)

Definition setFiles (f : gset Path -> gset Path) (st : State) : State :=
  {| files := f (files st);
     videoSessions := videoSessions st;
     audioPath := audioPath st;
     imagePaths := imagePaths st;
     ffmpegKilled := ffmpegKilled st |}.

Definition writeFileSync (p : Path) : M unit :=
  modify (setFiles (fun fs => fs ∪ {[p]})).

(** [try { if (fs.existsSync(p)) fs.unlinkSync(p); } catch { log }]. *)
Definition unlinkIfExists (p : Path) : M unit :=
  modify (setFiles (fun fs => fs ∖ {[p]})).

Definition renameSync (o : Outcomes) (source target : Path) : M unit :=
  match renameError o with
  | Some message => throw message
  | None =>
      present ← gets (fun st => bool_decide (source ∈ files st));
      if present : bool
      then modify (setFiles (fun fs => (fs ∖ {[source]}) ∪ {[target]}))
      else throw "ENOENT: no such file or directory, rename"
  end.

(** *** Progress *)

Definition ProgressCallback : Type := string -> Q -> M unit.

(** A call of the global [broadcastProgress] from a run. *)
Definition publish (o : Outcomes) (sid stepName : string)
           (progressValue : Q) (completionData : option CompletionData)
  : M unit :=
  fun st =>
    let '(registry, sent) :=
      broadcastProgress (socketOpen o) sid stepName progressValue
                        completionData (videoSessions st) in
    (Return tt,
     {| files := files st;
        videoSessions := registry;
        audioPath := audioPath st;
        imagePaths := imagePaths st;
        ffmpegKilled := ffmpegKilled st |},
     [{| pubSessionId := sid;
         pubStep := stepName;
         pubProgress := progressValue;
         pubData := completionData;
         pubSent := sent |}]).

(** *** The stages of [videoService.ts] *)

Record ImagePrompt := {
  visual : string;
  voiceover : string
}.

Record VideoGenerationResult := {
  videoPath : Path;
  duration : Q;
  optimizedTimings : list Q
}.

(** [generateAudioFile]. *)
Definition generateAudioFile (o : Outcomes) (onProgress : ProgressCallback)
  : M Path :=
  onProgress "generating-audio" 0;;
  match tts o with
  | TtsHttpError statusText =>
      throw ("TTS generation failed: " +:+ statusText)
  | TtsNoAudioUrl =>
      onProgress "generating-audio" 50;;
      throw "No audio URL returned from TTS service"
  | TtsDownloadError statusText =>
      onProgress "generating-audio" 50;;
      onProgress "generating-audio" 75;;
      throw ("Failed to download audio: " +:+ statusText)
  | TtsOk =>
      onProgress "generating-audio" 50;;
      onProgress "generating-audio" 75;;
      writeFileSync TmpAudio;;
      onProgress "generating-audio" 100;;
      mret TmpAudio
  end.

(** The loop of [generateAllImages] from index [i] on; [paths] is the
    local array [imagePaths] of that function. *)
Fixpoint generateImagesFrom (o : Outcomes) (onProgress : ProgressCallback)
         (total i : nat) (remaining : list ImagePrompt) (paths : list Path)
  : M (list Path) :=
  match remaining with
  | [] =>
      onProgress "generating-images" 100;;
      mret paths
  | _ :: rest =>
      onProgress "generating-images" (ofNat i / ofNat total * 100);;
      match image o i with
      | ImageHttpError statusText =>
          throw ("Image generation failed for prompt "
                 +:+ pretty (i + 1)%nat +:+ ": " +:+ statusText)
      | ImageNoUrl =>
          throw ("No image URL returned for prompt " +:+ pretty (i + 1)%nat)
      | ImageDownloadError statusText =>
          onProgress "generating-images"
                     ((ofNat i + 0.5) / ofNat total * 100);;
          throw ("Failed to download image: " +:+ statusText)
      | ImageOk =>
          onProgress "generating-images"
                     ((ofNat i + 0.5) / ofNat total * 100);;
          writeFileSync (TmpImage (i + 1));;
          generateImagesFrom o onProgress total (i + 1) rest
                             (paths ++ [TmpImage (i + 1)])
      end
  end.

Definition generateAllImages (o : Outcomes) (imagePrompts : list ImagePrompt)
           (onProgress : ProgressCallback) : M (list Path) :=
  generateImagesFrom o onProgress (length imagePrompts) 0 imagePrompts [].

(** [getMediaDuration]. *)
Definition getMediaDuration (outcome : ProbeOutcome) : M Q :=
  match outcome with
  | ProbeOk seconds => mret seconds
  | ProbeExit code => throw ("FFprobe failed with code " +:+ pretty code)
  | ProbeSpawnError message => throw ("FFprobe spawn error: " +:+ message)
  end.

Definition killFfmpeg : M unit :=
  modify (fun st =>
            {| files := files st;
               videoSessions := videoSessions st;
               audioPath := audioPath st;
               imagePaths := imagePaths st;
               ffmpegKilled := true |}).

(** The [stderr] handler, once per parsed [time=] value. *)
Fixpoint reportEncodeProgress (onProgress : ProgressCallback)
         (targetDuration : Q) (times : list Q) : M unit :=
  match times with
  | [] => mret tt
  | currentTime :: rest =>
      onProgress "creating-video"
                 (Qmin 95 (30 + (currentTime / targetDuration) * 65));;
      reportEncodeProgress onProgress targetDuration rest
  end.

(** [createVideoWithFFmpeg]. *)
Definition createVideoWithFFmpeg (o : Outcomes) (images : list Path)
           (audio : Path) (timings : list Q) (onProgress : ProgressCallback)
  : M (Path * Q) :=
  onProgress "creating-video" 0;;
  let outputPath := TmpVideo in
  onProgress "creating-video" 10;;
  audioDuration ← getMediaDuration (audioProbe o);
  let adjusted :=
    Compositor.adjustedTimings (length images) audioDuration timings in
  let targetDuration := Compositor.targetDuration audioDuration in
  onProgress "creating-video" 20;;
  match Compositor.imageInputDurations (length images) adjusted with
  | None =>
      throw "Cannot read properties of undefined (reading 'toString')"
  | Some _ =>
      onProgress "creating-video" 30;;
      (if ffmpegWroteOutput o then writeFileSync outputPath else mret tt);;
      reportEncodeProgress onProgress targetDuration (encodeTimes o);;
      match ffmpeg o with
      | FfmpegTimeout =>
          killFfmpeg;;
          unlinkIfExists outputPath;;
          throw ("FFmpeg timeout after 120 seconds. Stderr: "
                 +:+ ffmpegStderr o)
      | FfmpegClose code =>
          if decide (code = 0%Z)
          then
            tryCatch
              (onProgress "creating-video" 95;;
               actualDuration ← getMediaDuration (videoProbe o);
               onProgress "creating-video" 100;;
               mret (outputPath, actualDuration))
              (fun message =>
                 throw ("Failed to get video duration: " +:+ message))
          else
            unlinkIfExists outputPath;;
            throw ("FFmpeg failed with code " +:+ pretty code +:+ ": "
                   +:+ ffmpegStderr o)
      | FfmpegSpawnError message =>
          unlinkIfExists outputPath;;
          throw ("FFmpeg spawn error: " +:+ message)
      end
  end.

Definition setAudioPath (p : Path) : M unit :=
  modify (fun st =>
            {| files := files st;
               videoSessions := videoSessions st;
               audioPath := Some p;
               imagePaths := imagePaths st;
               ffmpegKilled := ffmpegKilled st |}).

Definition setImagePaths (ps : list Path) : M unit :=
  modify (fun st =>
            {| files := files st;
               videoSessions := videoSessions st;
               audioPath := audioPath st;
               imagePaths := ps;
               ffmpegKilled := ffmpegKilled st |}).

(** [l.forEach(f)]. *)
Fixpoint forEach {A : Type} (f : A -> M unit) (l : list A) : M unit :=
  match l with
  | [] => mret tt
  | x :: rest => f x;; forEach f rest
  end.

(** The [try] block of [generateVideo]. *)
Definition generateVideoTry (o : Outcomes) (imagePrompts : list ImagePrompt)
           (onProgress : ProgressCallback) : M VideoGenerationResult :=
  onProgress "initializing" 0;;
  let voiceoverSegments :=
    map (fun prompt => trim (voiceover prompt)) imagePrompts in
  onProgress "calculating-timings" 5;;
  let timings := Timing.calculateOptimalTimings voiceoverSegments in
  audio ← generateAudioFile o onProgress;
  setAudioPath audio;;
  images ← generateAllImages o imagePrompts onProgress;
  setImagePaths images;;
  created ← createVideoWithFFmpeg o images audio timings onProgress;
  onProgress "completed" 100;;
  mret {| videoPath := fst created;
          duration := snd created;
          optimizedTimings := timings |}.

(** The [catch] block of [generateVideo]. *)
Definition generateVideoCatch (onProgress : ProgressCallback)
           (message : string) : M VideoGenerationResult :=
  onProgress "error" 0;;
  throw message.

(** The [finally] block of [generateVideo]. *)
Definition generateVideoFinally (onProgress : ProgressCallback) : M unit :=
  onProgress "finalizing" 95;;
  images ← gets imagePaths;
  forEach unlinkIfExists images;;
  audio ← gets audioPath;
  match audio with
  | Some p => unlinkIfExists p
  | None => mret tt
  end.

(** [generateVideo]; the two [let] variables start as [null] and [[]]. *)
Definition generateVideo (o : Outcomes) (imagePrompts : list ImagePrompt)
           (onProgress : ProgressCallback) : M VideoGenerationResult :=
  modify (fun st =>
            {| files := files st;
               videoSessions := videoSessions st;
               audioPath := None;
               imagePaths := [];
               ffmpegKilled := ffmpegKilled st |});;
  tryFinally
    (tryCatch (generateVideoTry o imagePrompts onProgress)
              (generateVideoCatch onProgress))
    (generateVideoFinally onProgress).

(** *** The asynchronous part of the [/api/generate-video] handler *)

(** The [catch] block of the handler: code, message and details by the
    text of the error. *)
Definition classifyError (message : string) : CompletionData :=
  if includes message "TTS generation failed"
  then Failure "TTS_SERVICE_ERROR"
               "Failed to generate audio for video"
               "Please check your text-to-speech service configuration"
  else if includes message "Image generation failed"
  then Failure "IMAGE_SERVICE_ERROR"
               "Failed to generate images for video"
               "Please check your image generation service configuration"
  else if includes message "FFmpeg failed"
  then Failure "VIDEO_PROCESSING_ERROR"
               "Failed to process video"
               "Video encoding failed. Please try again"
  else Failure "INTERNAL_ERROR"
               "Video generation failed"
               "An unexpected error occurred".

Definition errorCode (d : CompletionData) : string :=
  match d with
  | Failure code _ _ => code
  | VideoReady _ _ => ""
  end.

(** The [onProgress] callback the handler defines: a call of
    [broadcastProgress] without completion data. *)
Definition handlerProgress (o : Outcomes) (sid : string) : ProgressCallback :=
  fun stepName progressValue => publish o sid stepName progressValue None.

(** A callback that returns and leaves the files alone, as
    [handlerProgress] does. *)
Definition quietCallback (cb : ProgressCallback) : Prop :=
  forall stepName progressValue st,
    exists st' out,
      cb stepName progressValue st = (Return tt, st', out)
      /\ files st' = files st.

(** The body of the [(async () => { ... })()] of the handler, for the
    session identifier [sid]. *)
Definition runVideoGeneration (o : Outcomes) (sid : string)
           (imagePrompts : list ImagePrompt) : M unit :=
  tryCatch
    (let onProgress := handlerProgress o sid in
     result ← generateVideo o imagePrompts onProgress;
     renameSync o (videoPath result) PublicVideo;;
     publish o sid "completed" 100
             (Some (VideoReady (duration result)
                               (optimizedTimings result))))
    (fun message =>
       publish o sid "error" 0 (Some (classifyError message))).

(** *** Observations on a finished run *)

Definition initialState (fs : gset Path)
           (registry : gmap string (list Socket)) : State :=
  {| files := fs;
     videoSessions := registry;
     audioPath := None;
     imagePaths := [];
     ffmpegKilled := false |}.

Definition finalState {A : Type} (r : Result A * State * list Publication)
  : State := snd (fst r).

Definition publications {A : Type}
           (r : Result A * State * list Publication) : list Publication :=
  snd r.

Definition publishedSteps {A : Type}
           (r : Result A * State * list Publication) : list string :=
  map pubStep (publications r).

(** The messages socket [ws] received, as steps, in order. *)
Definition receivedSteps {A : Type} (ws : Socket)
           (r : Result A * State * list Publication) : list string :=
  map (fun m => step (snd m))
      (filter (fun m => fst m = ws)
              (concat (map pubSent (publications r)))).

(** The payload of the last call of [broadcastProgress]. *)
Definition lastData {A : Type} (r : Result A * State * list Publication)
  : option CompletionData :=
  match last (publications r) with
  | Some p => pubData p
  | None => None
  end.

(** The temporary files left on disk. *)
Definition leftovers (st : State) : gset Path :=
  filter (fun p => isTemporary p = true) (files st).

(** All external operations succeed. *)
Definition allSucceed (audioSeconds videoSeconds : Q) : Outcomes :=
  {| tts := TtsOk;
     image := fun _ => ImageOk;
     audioProbe := ProbeOk audioSeconds;
     ffmpeg := FfmpegClose 0;
     ffmpegWroteOutput := true;
     ffmpegStderr := "";
     encodeTimes := [];
     videoProbe := ProbeOk videoSeconds;
     renameError := None;
     socketOpen := fun _ => true |}.

(** Runs used as examples: two prompts, one subscribed socket, no file
    on disk at the start. *)
Definition twoPrompts : list ImagePrompt :=
  [ {| visual := "a lighthouse at dawn";
       voiceover := "Welcome to the coast" |};
    {| visual := "waves on the rocks";
       voiceover := "Contact us today!" |} ].

Definition oneSubscriber : gmap string (list Socket) :=
  onMessage 7%nat (subscribeMessage "run-1") ∅.

Definition runWith (o : Outcomes)
  : Result unit * State * list Publication :=
  runVideoGeneration o "run-1" twoPrompts (initialState ∅ oneSubscriber).

(** The encoder neither closes nor fails within 120 seconds; it has
    written part of the output file and nothing on [stderr]. *)
Definition encoderTimesOut : Outcomes :=
  {| tts := TtsOk;
     image := fun _ => ImageOk;
     audioProbe := ProbeOk 30;
     ffmpeg := FfmpegTimeout;
     ffmpegWroteOutput := true;
     ffmpegStderr := "";
     encodeTimes := [];
     videoProbe := ProbeOk 30;
     renameError := None;
     socketOpen := fun _ => true |}.

(** The encoder exits with code 0 and [ffprobe] then fails on the
    output file. *)
Definition probeFailsAfterEncode : Outcomes :=
  {| tts := TtsOk;
     image := fun _ => ImageOk;
     audioProbe := ProbeOk 30;
     ffmpeg := FfmpegClose 0;
     ffmpegWroteOutput := true;
     ffmpegStderr := "";
     encodeTimes := [];
     videoProbe := ProbeExit 1;
     renameError := None;
     socketOpen := fun _ => true |}.

(** The image service answers the second request with an error
    status. *)
Definition secondImageFails : Outcomes :=
  {| tts := TtsOk;
     image := fun i => if (i =? 1)%nat
                       then ImageHttpError "Too Many Requests"
                       else ImageOk;
     audioProbe := ProbeOk 30;
     ffmpeg := FfmpegClose 0;
     ffmpegWroteOutput := true;
     ffmpegStderr := "";
     encodeTimes := [];
     videoProbe := ProbeOk 30;
     renameError := None;
     socketOpen := fun _ => true |}.

(** The encoder exits with a non-zero code. *)
Definition encoderFails : Outcomes :=
  {| tts := TtsOk;
     image := fun _ => ImageOk;
     audioProbe := ProbeOk 30;
     ffmpeg := FfmpegClose 1;
     ffmpegWroteOutput := true;
     ffmpegStderr := "Conversion failed!";
     encodeTimes := [];
     videoProbe := ProbeOk 30;
     renameError := None;
     socketOpen := fun _ => true |}.

(** Event ordering as the specification states it: no step other than a
    terminal one is published after a terminal step. *)
Fixpoint terminalIsLast (steps : list string) : bool :=
  match steps with
  | [] => true
  | s :: rest =>
      (if isTerminal s then forallb isTerminal rest else true)
      && terminalIsLast rest
  end.

End Pipeline.

(** ** Vocabulary for the properties of the pipeline stages *)

Module PipelineFrames.

Import Broadcaster Pipeline.
Local Open Scope Q_scope.

(** A callback that returns and changes nothing but the registry, as
    [handlerProgress] does. *)
Definition frameCallback (cb : ProgressCallback) : Prop :=
  forall stepName progressValue st,
    exists st' out,
      cb stepName progressValue st = (Return tt, st', out)
      /\ files st' = files st
      /\ audioPath st' = audioPath st
      /\ imagePaths st' = imagePaths st
      /\ ffmpegKilled st' = ffmpegKilled st.

(** The paths [generateAllImages] has pushed after [k] downloads. *)
Definition imageFiles (k : nat) : list Path :=
  map (fun i => TmpImage (i + 1)) (seq 0 k).

(** How many of the [n] image requests from index [i] on are served
    before the first one that fails. *)
Fixpoint servedImages (o : Outcomes) (i n : nat) : nat :=
  match n with
  | O => O
  | S n' =>
      match image o i with
      | ImageOk => S (servedImages o (S i) n')
      | _ => O
      end
  end.


(** The set of files a list of paths names. *)
Definition pathSet (paths : list Path) : gset Path := list_to_set paths.

(** The files the [finally] block of [generateVideo] removes. *)
Definition recordedFiles (st : State) : gset Path :=
  pathSet (imagePaths st)
  ∪ match audioPath st with
    | Some p => {[p]}
    | None => ∅
    end.

(** Every external operation of a run succeeds. *)
Definition everythingSucceeds (o : Outcomes) (videoSeconds : Q) : Prop :=
  tts o = TtsOk
  /\ (forall i, image o i = ImageOk)
  /\ (exists audioSeconds, audioProbe o = ProbeOk audioSeconds)
  /\ ffmpeg o = FfmpegClose 0
  /\ ffmpegWroteOutput o = true
  /\ videoProbe o = ProbeOk videoSeconds
  /\ renameError o = None.

End PipelineFrames.

(** ** JavaScript containers and number parsing used by the storage *)

Module JsMap.

(** A [Map] with string keys: the entries in insertion order. *)
Definition t (V : Type) : Type := list (string * V).

Section Operations.

Context {V : Type}.

(** [m.get(k)]. *)
Fixpoint get (k : string) (m : t V) : option V :=
  match m with
  | [] => None
  | (k', v) :: rest => if String.eqb k' k then Some v else get k rest
  end.

(** [m.set(k, v)]: an existing key keeps its place. *)
Fixpoint set (k : string) (v : V) (m : t V) : t V :=
  match m with
  | [] => [(k, v)]
  | (k', v') :: rest =>
      if String.eqb k' k then (k, v) :: rest else (k', v') :: set k v rest
  end.

(** The map after [m.delete(k)]; the call returns [has k m]. *)
Fixpoint delete (k : string) (m : t V) : t V :=
  match m with
  | [] => []
  | (k', v') :: rest =>
      if String.eqb k' k then rest else (k', v') :: delete k rest
  end.

Definition has (k : string) (m : t V) : bool :=
  match get k m with
  | Some _ => true
  | None => false
  end.

(** [Array.from(m.values())]. *)
Definition values (m : t V) : list V := map snd m.

Definition keys (m : t V) : list string := map fst m.

End Operations.

End JsMap.

Module JsArray.

Section Sort.

Context {A : Type}.

(** [a.sort(compare)] for a comparator that orders consistently: the
    sort is stable, so the result is the list obtained by inserting each
    element, from the last to the first, before the first element it does
    not exceed. *)
Fixpoint insertSorted (compare : A -> A -> Z) (x : A) (l : list A)
  : list A :=
  match l with
  | [] => [x]
  | y :: rest =>
      if (0 <? compare x y)%Z
      then y :: insertSorted compare x rest
      else x :: y :: rest
  end.

Definition sort (compare : A -> A -> Z) (l : list A) : list A :=
  foldr (insertSorted compare) [] l.

(** [a.find(p)]. *)
Fixpoint find (p : A -> bool) (l : list A) : option A :=
  match l with
  | [] => None
  | x :: rest => if p x then Some x else find p rest
  end.

End Sort.

End JsArray.

Module JsParse.

Import JsString.

(** The value of a code unit as a digit of the radix, if it is one. *)
Definition digitValue (radix : Z) (c : ascii) : option Z :=
  let n := Z.of_nat (codeUnit c) in
  let v :=
    if (48 <=? n)%Z && (n <=? 57)%Z then Some (n - 48)%Z
    else if (97 <=? n)%Z && (n <=? 122)%Z then Some (n - 87)%Z
    else if (65 <=? n)%Z && (n <=? 90)%Z then Some (n - 55)%Z
    else None in
  match v with
  | Some d => if (d <? radix)%Z then Some d else None
  | None => None
  end.

(** The value of the longest prefix of digits, continuing from [acc]. *)
Fixpoint digitsFrom (radix acc : Z) (s : string) : Z :=
  match s with
  | EmptyString => acc
  | String c rest =>
      match digitValue radix c with
      | Some d => digitsFrom radix (acc * radix + d) rest
      | None => acc
      end
  end.

(** [None] when the text does not start with a digit. *)
Definition digits (radix : Z) (s : string) : option Z :=
  match s with
  | EmptyString => None
  | String c _ =>
      match digitValue radix c with
      | Some _ => Some (digitsFrom radix 0 s)
      | None => None
      end
  end.

Definition isX (c : ascii) : bool :=
  Nat.eqb (codeUnit c) 120 || Nat.eqb (codeUnit c) 88.

(** [parseInt(s)] without a radix argument; [None] stands for [NaN]. *)
Definition parseInt (s : string) : option Z :=
  let s := trimStart s in
  let signed :=
    match s with
    | String c rest =>
        if Nat.eqb (codeUnit c) 45 then ((-1)%Z, rest)
        else if Nat.eqb (codeUnit c) 43 then (1%Z, rest)
        else (1%Z, s)
    | EmptyString => (1%Z, s)
    end in
  let prefixed :=
    match snd signed with
    | String c0 (String c1 rest) =>
        if Nat.eqb (codeUnit c0) 48 && isX c1
        then (16%Z, rest)
        else (10%Z, snd signed)
    | _ => (10%Z, snd signed)
    end in
  match digits (fst prefixed) (snd prefixed) with
  | Some n => Some (fst signed * n)%Z
  | None => None
  end.

(** [s.slice(-n)]: the last [n] code units. *)
Definition sliceLast (n : nat) (s : string) : string :=
  String.substring (String.length s - n) n s.

(** [s.startsWith(p)]. *)
Definition startsWith (s p : string) : bool := String.prefix p s.

End JsParse.

(** ** The in-memory storage of [server/storage.ts] *)

Module Storage.

Import JsParse.

Record Conversation := {
  conversationId : string;
  title : string;
  conversationCreatedAt : Z;
  conversationUpdatedAt : Z
}.

Record Message := {
  messageId : string;
  messageConversationId : string;
  content : string;
  isUser : bool;
  messageCreatedAt : Z
}.

Record ApiKey := {
  keyId : string;
  keyName : string;
  provider : string;
  keyValue : string;
  isActive : bool;
  lastUsed : option Z;
  usageCount : string;
  keyCreatedAt : Z;
  keyUpdatedAt : Z
}.

(** [InsertApiKey]; [insertIsActive] is optional. *)
Record InsertApiKey := {
  insertName : string;
  insertProvider : string;
  insertKeyValue : string;
  insertIsActive : option bool
}.

(** [UpdateApiKey]: every field optional. *)
Record UpdateApiKey := {
  updateName : option string;
  updateProvider : option string;
  updateKeyValue : option string;
  updateIsActive : option bool;
  updateLastUsed : option (option Z);
  updateUsageCount : option string
}.

(** The maps of [MemStorage] that the routes use. *)
Record MemStorage := {
  conversations : JsMap.t Conversation;
  messages : JsMap.t Message;
  apiKeys : JsMap.t ApiKey
}.

Definition empty : MemStorage :=
  {| conversations := []; messages := []; apiKeys := [] |}.

Definition withConversations (c : JsMap.t Conversation) (s : MemStorage)
  : MemStorage :=
  {| conversations := c; messages := messages s; apiKeys := apiKeys s |}.

Definition withMessages (m : JsMap.t Message) (s : MemStorage)
  : MemStorage :=
  {| conversations := conversations s; messages := m; apiKeys := apiKeys s |}.

Definition withApiKeys (k : JsMap.t ApiKey) (s : MemStorage) : MemStorage :=
  {| conversations := conversations s; messages := messages s;
     apiKeys := k |}.

(** *** Conversations and messages *)

Definition getConversation (id : string) (s : MemStorage)
  : option Conversation :=
  JsMap.get id (conversations s).

(** [createConversation]; [id] is the fresh UUID and [now] the date. *)
Definition createConversation (id : string) (now : Z) (newTitle : string)
           (s : MemStorage) : Conversation * MemStorage :=
  let conversation :=
    {| conversationId := id; title := newTitle;
       conversationCreatedAt := now; conversationUpdatedAt := now |} in
  (conversation,
   withConversations (JsMap.set id conversation (conversations s)) s).

(** [(a, b) => b.updatedAt.getTime() - a.updatedAt.getTime()]. *)
Definition compareUpdatedDesc (a b : Conversation) : Z :=
  conversationUpdatedAt b - conversationUpdatedAt a.

Definition getConversations (s : MemStorage) : list Conversation :=
  JsArray.sort compareUpdatedDesc (JsMap.values (conversations s)).

(** [updateConversation] with the only field of [InsertConversation]. *)
Definition updateConversation (id : string) (now : Z)
           (newTitle : option string) (s : MemStorage)
  : option Conversation * MemStorage :=
  match JsMap.get id (conversations s) with
  | None => (None, s)
  | Some conversation =>
      let updated :=
        {| conversationId := conversationId conversation;
           title := default (title conversation) newTitle;
           conversationCreatedAt := conversationCreatedAt conversation;
           conversationUpdatedAt := now |} in
      (Some updated,
       withConversations (JsMap.set id updated (conversations s)) s)
  end.

(** [(a, b) => a.createdAt.getTime() - b.createdAt.getTime()]. *)
Definition compareCreatedAsc (a b : Message) : Z :=
  messageCreatedAt a - messageCreatedAt b.

Definition getMessagesByConversation (id : string) (s : MemStorage)
  : list Message :=
  JsArray.sort compareCreatedAsc
    (filter (fun msg => messageConversationId msg = id)
            (JsMap.values (messages s))).

Definition createMessage (id : string) (now : Z) (conversation text : string)
           (fromUser : bool) (s : MemStorage) : Message * MemStorage :=
  let message :=
    {| messageId := id; messageConversationId := conversation;
       content := text; isUser := fromUser; messageCreatedAt := now |} in
  (message, withMessages (JsMap.set id message (messages s)) s).

(** *** API keys *)

Section Crypto.

(** [encryptKey] with its random initialisation vector made explicit, and
    [decryptKey], [None] when it throws.  The cipher itself
    (AES-256-GCM of the [crypto] module) is not modelled. *)
Variable encryptKey : string -> string -> string.
Variable decryptKey : string -> option string.

Definition getApiKeys (wanted : option string) (s : MemStorage)
  : list ApiKey :=
  let allKeys := JsMap.values (apiKeys s) in
  match wanted with
  | Some p =>
      if String.eqb p "" then allKeys
      else filter (fun key => provider key = p) allKeys
  | None => allKeys
  end.

(** The comparator of [getActiveApiKeys]: keys never used first, then the
    least recently used. *)
Definition compareLastUsed (a b : ApiKey) : Z :=
  match lastUsed a, lastUsed b with
  | None, None => 0
  | None, Some _ => -1
  | Some _, None => 1
  | Some ta, Some tb => ta - tb
  end.

Definition getActiveApiKeys (wanted : string) (s : MemStorage)
  : list ApiKey :=
  JsArray.sort compareLastUsed
    (filter (fun key => provider key = wanted /\ isActive key = true)
            (JsMap.values (apiKeys s))).

(** [createApiKey]; [id], [now] and [iv] are the fresh UUID, the date and
    the random bytes. *)
Definition createApiKey (id : string) (now : Z) (iv : string)
           (insert : InsertApiKey) (s : MemStorage) : ApiKey * MemStorage :=
  let apiKey :=
    {| keyId := id;
       keyName := insertName insert;
       provider := insertProvider insert;
       keyValue := encryptKey iv (insertKeyValue insert);
       isActive := default true (insertIsActive insert);
       lastUsed := None;
       usageCount := "0";
       keyCreatedAt := now;
       keyUpdatedAt := now |} in
  (apiKey, withApiKeys (JsMap.set id apiKey (apiKeys s)) s).

Definition updateApiKey (id : string) (now : Z) (iv : string)
           (updates : UpdateApiKey) (s : MemStorage)
  : option ApiKey * MemStorage :=
  match JsMap.get id (apiKeys s) with
  | None => (None, s)
  | Some apiKey =>
      let spreadKeyValue := default (keyValue apiKey) (updateKeyValue updates) in
      let updated :=
        {| keyId := keyId apiKey;
           keyName := default (keyName apiKey) (updateName updates);
           provider := default (provider apiKey) (updateProvider updates);
           keyValue :=
             match updateKeyValue updates with
             | Some plain =>
                 if String.eqb plain "" then spreadKeyValue
                 else encryptKey iv plain
             | None => spreadKeyValue
             end;
           isActive := default (isActive apiKey) (updateIsActive updates);
           lastUsed := default (lastUsed apiKey) (updateLastUsed updates);
           usageCount :=
             default (usageCount apiKey) (updateUsageCount updates);
           keyCreatedAt := keyCreatedAt apiKey;
           keyUpdatedAt := now |} in
      (Some updated, withApiKeys (JsMap.set id updated (apiKeys s)) s)
  end.

Definition deleteApiKey (id : string) (s : MemStorage)
  : bool * MemStorage :=
  (JsMap.has id (apiKeys s),
   withApiKeys (JsMap.delete id (apiKeys s)) s).

(** [incrementApiKeyUsage]; the two dates are those of [lastUsed] and
    [updatedAt]. *)
Definition incrementApiKeyUsage (id : string) (nowUsed nowUpdated : Z)
           (s : MemStorage) : MemStorage :=
  match JsMap.get id (apiKeys s) with
  | None => s
  | Some apiKey =>
      let currentCount := default 0%Z (parseInt (usageCount apiKey)) in
      let updated :=
        {| keyId := keyId apiKey;
           keyName := keyName apiKey;
           provider := provider apiKey;
           keyValue := keyValue apiKey;
           isActive := isActive apiKey;
           lastUsed := Some nowUsed;
           usageCount := pretty (currentCount + 1)%Z;
           keyCreatedAt := keyCreatedAt apiKey;
           keyUpdatedAt := nowUpdated |} in
      withApiKeys (JsMap.set id updated (apiKeys s)) s
  end.

Definition getDecryptedApiKey (id : string) (s : MemStorage)
  : option string :=
  match JsMap.get id (apiKeys s) with
  | None => None
  | Some apiKey => decryptKey (keyValue apiKey)
  end.

End Crypto.

(** Every API key is stored under its own identifier, and no identifier
    occurs twice: what [createApiKey] and the other methods maintain when
    the UUIDs are fresh. *)
Definition keysConsistent (s : MemStorage) : Prop :=
  NoDup (JsMap.keys (apiKeys s))
  /\ Forall (fun entry => keyId (snd entry) = fst entry) (apiKeys s).

(** The order of [compareLastUsed] as a rank: never used before any
    date. *)
Definition usedBefore (a b : ApiKey) : Prop :=
  match lastUsed a, lastUsed b with
  | None, _ => True
  | Some _, None => False
  | Some ta, Some tb => (ta <= tb)%Z
  end.

(** A store with two active keys of one provider, one of them never
    used, and a cipher that keeps the text, for the examples. *)
Definition exampleKey (id : string) (used : option Z) : ApiKey :=
  {| keyId := id; keyName := id; provider := "github";
     keyValue := "secret-" +:+ id; isActive := true; lastUsed := used;
     usageCount := "0"; keyCreatedAt := 0; keyUpdatedAt := 0 |}.

Definition twoKeys : MemStorage :=
  withApiKeys [("a", exampleKey "a" (Some 5%Z)); ("b", exampleKey "b" None)]
              empty.

Definition plainCipher (iv text : string) : string := iv +:+ ":" +:+ text.

Definition plainDecipher (stored : string) : option string := Some stored.

End Storage.

(** ** The helpers and handlers of [registerRoutes] around the storage *)

Module Routes.

Import JsParse Storage.

(** [verifyAdminPassword]; the argument is [process.env.ADMIN_PASSWORD]. *)
Definition verifyAdminPassword (envAdminPassword : option string)
           (password : string) : bool :=
  let adminPassword :=
    match envAdminPassword with
    | Some p => if String.eqb p "" then "admin"%string else p
    | None => "admin"%string
    end in
  String.eqb password adminPassword.

(** The title of a new conversation in the [/api/chat] handler. *)
Definition chatTitle (message : string) : string :=
  if (50 <? String.length message)%nat
  then String.substring 0 47 message +:+ "..."
  else message.

(** [`*****${keyValue.slice(-4)}`]. *)
Definition maskKey (value : string) : string :=
  "*****" +:+ sliceLast 4 value.

(** [{ ...key, keyValue: `*****${key.keyValue.slice(-4)}` }]. *)
Definition safeKey (key : ApiKey) : ApiKey :=
  {| keyId := keyId key;
     keyName := keyName key;
     provider := provider key;
     keyValue := maskKey (keyValue key);
     isActive := isActive key;
     lastUsed := lastUsed key;
     usageCount := usageCount key;
     keyCreatedAt := keyCreatedAt key;
     keyUpdatedAt := keyUpdatedAt key |}.

Inductive Body :=
| ErrorBody (message : string)
| KeyListBody (keys : list ApiKey)
| KeyBody (key : ApiKey)
| SuccessBody
| ChatBody (response conversation message : string).

Record Response := {
  status : nat;
  body : Body
}.

(** The keys that a response shows. *)
Definition shownKeys (b : Body) : list ApiKey :=
  match b with
  | KeyListBody keys => keys
  | KeyBody key => [key]
  | _ => []
  end.

Definition json (code : nat) (b : Body) : Response :=
  {| status := code; body := b |}.

(** [z.enum(["huggingface", "openai", "elevenlabs", "murf", "github"])]. *)
Definition knownProvider (p : string) : bool :=
  String.eqb p "huggingface" || String.eqb p "openai"
  || String.eqb p "elevenlabs" || String.eqb p "murf"
  || String.eqb p "github".

Definition nonEmpty (s : string) : bool := negb (String.eqb s "").

Section Handlers.

Variable encryptKey : string -> string -> string.
Variable decryptKey : string -> option string.
Variable envAdminPassword : option string.

(** [getNextApiKey]. *)
Definition getNextApiKey (wanted : string) (nowUsed nowUpdated : Z)
           (s : MemStorage) : option (string * string) * MemStorage :=
  match getActiveApiKeys wanted s with
  | [] => (None, s)
  | nextKey :: _ =>
      match getDecryptedApiKey decryptKey (keyId nextKey) s with
      | Some decryptedKey =>
          if String.eqb decryptedKey "" then (None, s)
          else (Some (decryptedKey, keyId nextKey),
                incrementApiKeyUsage (keyId nextKey) nowUsed nowUpdated s)
      | None => (None, s)
      end
  end.

(** [POST /api/admin/keys]. *)
Definition adminGetKeys (adminPassword : string) (s : MemStorage)
  : Response * MemStorage :=
  if negb (nonEmpty adminPassword)
  then (json 500 (ErrorBody "Failed to get API keys"), s)
  else if negb (verifyAdminPassword envAdminPassword adminPassword)
  then (json 401 (ErrorBody "Invalid admin password"), s)
  else (json 200 (KeyListBody (map safeKey (getApiKeys None s))), s).

(** [POST /api/admin/keys/add]. *)
Definition adminAddKey (id : string) (now : Z) (iv : string)
           (name wanted value adminPassword : string) (s : MemStorage)
  : Response * MemStorage :=
  if negb (nonEmpty name && knownProvider wanted && nonEmpty value
           && nonEmpty adminPassword)
  then (json 500 (ErrorBody "Failed to add API key"), s)
  else if negb (verifyAdminPassword envAdminPassword adminPassword)
  then (json 401 (ErrorBody "Invalid admin password"), s)
  else
    let '(newKey, s') :=
      createApiKey encryptKey id now iv
        {| insertName := name; insertProvider := wanted;
           insertKeyValue := value; insertIsActive := Some true |} s in
    (json 200 (KeyBody (safeKey newKey)), s').

(** [POST /api/admin/keys/update]. *)
Definition adminUpdateKey (now : Z) (iv : string) (id : string)
           (active : bool) (adminPassword : string) (s : MemStorage)
  : Response * MemStorage :=
  if negb (nonEmpty adminPassword)
  then (json 500 (ErrorBody "Failed to update API key"), s)
  else if negb (verifyAdminPassword envAdminPassword adminPassword)
  then (json 401 (ErrorBody "Invalid admin password"), s)
  else
    match updateApiKey encryptKey id now iv
            {| updateName := None; updateProvider := None;
               updateKeyValue := None; updateIsActive := Some active;
               updateLastUsed := None; updateUsageCount := None |} s with
    | (None, s') => (json 404 (ErrorBody "API key not found"), s')
    | (Some updatedKey, s') => (json 200 (KeyBody (safeKey updatedKey)), s')
    end.

(** [POST /api/admin/keys/delete]. *)
Definition adminDeleteKey (id adminPassword : string) (s : MemStorage)
  : Response * MemStorage :=
  if negb (nonEmpty adminPassword)
  then (json 500 (ErrorBody "Failed to delete API key"), s)
  else if negb (verifyAdminPassword envAdminPassword adminPassword)
  then (json 401 (ErrorBody "Invalid admin password"), s)
  else
    match deleteApiKey id s with
    | (false, s') => (json 404 (ErrorBody "API key not found"), s')
    | (true, s') => (json 200 SuccessBody, s')
    end.

(** What one [/api/chat] request takes from outside: fresh UUIDs, dates,
    the token of the environment and the answer of the model ([None] when
    the call throws). *)
Record ChatEnv := {
  newConversationId : string;
  userMessageId : string;
  aiMessageId : string;
  conversationDate : Z;
  userMessageDate : Z;
  aiMessageDate : Z;
  updateDate : Z;
  keyUsedDate : Z;
  keyUpdatedDate : Z;
  envGithubToken : option string;
  modelAnswer : option string
}.

(** [getChatCompletion] as far as the handler sees it: it throws without
    a key, when the call fails, and on an empty answer. *)
Definition getChatCompletion (env : ChatEnv) (apiKey : option string)
  : option string :=
  let finalApiKey :=
    match apiKey with
    | Some k => if nonEmpty k then Some k else envGithubToken env
    | None => envGithubToken env
    end in
  match finalApiKey with
  | Some k =>
      if nonEmpty k
      then match modelAnswer env with
           | Some answer => if nonEmpty answer then Some answer else None
           | None => None
           end
      else None
  | None => None
  end.

(** [POST /api/chat]. *)
Definition handleChat (env : ChatEnv) (message : string)
           (wantedConversation : option string) (s : MemStorage)
  : Response * MemStorage :=
  if negb (nonEmpty message)
  then (json 500 (ErrorBody "Failed to process chat request"), s)
  else
    let found :=
      match wantedConversation with
      | Some id =>
          if nonEmpty id
          then match getConversation id s with
               | Some conversation => Some (conversation, s)
               | None => None
               end
          else Some (createConversation (newConversationId env)
                       (conversationDate env) (chatTitle message) s)
      | None =>
          Some (createConversation (newConversationId env)
                  (conversationDate env) (chatTitle message) s)
      end in
    match found with
    | None => (json 404 (ErrorBody "Conversation not found"), s)
    | Some (conversation, s1) =>
        let '(_, s2) :=
          createMessage (userMessageId env) (userMessageDate env)
                        (conversationId conversation) message true s1 in
        let '(apiKeyInfo, s3) :=
          getNextApiKey "github" (keyUsedDate env) (keyUpdatedDate env) s2 in
        match getChatCompletion env (fst <$> apiKeyInfo) with
        | None =>
            (json 500 (ErrorBody "Failed to process chat request"), s3)
        | Some aiResponse =>
            let '(aiMessage, s4) :=
              createMessage (aiMessageId env) (aiMessageDate env)
                            (conversationId conversation) aiResponse false
                            s3 in
            let '(_, s5) :=
              updateConversation (conversationId conversation)
                                 (updateDate env)
                                 (Some (title conversation)) s4 in
            (json 200 (ChatBody aiResponse (conversationId conversation)
                                (messageId aiMessage)),
             s5)
        end
    end.

End Handlers.

(** *** The audio URL of the [/api/generate-tts] handler *)

(** [[...].filter(Boolean)] on the picked fields. *)
Definition audioCandidates (fields : list (option string)) : list string :=
  omap (fun v => match v with
                 | Some s => if nonEmpty s then Some s else None
                 | None => None
                 end) fields.

Definition isUrl (s : string) : bool :=
  startsWith s "http://" || startsWith s "https://" || startsWith s "data:".

Definition isBase64Char (c : ascii) : bool :=
  let n := JsString.codeUnit c in
  (Nat.leb 65 n && Nat.leb n 90) || (Nat.leb 97 n && Nat.leb n 122)
  || (Nat.leb 48 n && Nat.leb n 57) || Nat.eqb n 43 || Nat.eqb n 47.

(** The text after the leading characters of the class
    [[A-Za-z0-9+/]]. *)
Fixpoint dropBase64Chars (s : string) : string :=
  match s with
  | EmptyString => EmptyString
  | String c rest => if isBase64Char c then dropBase64Chars rest else s
  end.

(** [/^[A-Za-z0-9+/]+={0,2}$/.test(s)]. *)
Definition matchesBase64 (s : string) : bool :=
  match s with
  | EmptyString => false
  | String c _ =>
      isBase64Char c
      && (String.eqb (dropBase64Chars s) ""
          || String.eqb (dropBase64Chars s) "="
          || String.eqb (dropBase64Chars s) "==")
  end.

(** The value of [audioUrl] before the final test; [None] leads to the
    502 answer. *)
Definition selectAudioUrl (fields : list (option string)) : option string :=
  let candidates := audioCandidates fields in
  match JsArray.find isUrl candidates with
  | Some url => Some url
  | None =>
      match candidates with
      | candidate :: _ =>
          if matchesBase64 candidate
             && Nat.eqb (String.length candidate mod 4) 0
          then Some ("data:audio/mpeg;base64," +:+ candidate)
          else None
      | [] => None
      end
  end.

(** A chat request environment for the examples; the model answers
    when [answer] is given. *)
Definition exampleChat (answer : option string) : ChatEnv :=
  {| newConversationId := "c1"; userMessageId := "m1"; aiMessageId := "m2";
     conversationDate := 1; userMessageDate := 2; aiMessageDate := 5;
     updateDate := 6; keyUsedDate := 3; keyUpdatedDate := 4;
     envGithubToken := Some "token"; modelAnswer := answer |}.

End Routes.
(** ** Facts about the arithmetic helpers *)

Module JsNumberFacts.

Import JsNumber.
Local Open Scope Q_scope.

Lemma fold_left_Qplus_acc (l : list Q) (a : Q) :
  fold_left Qplus l a == a + fold_left Qplus l 0.
Proof.
  revert a; induction l as [|x l IH]; intros a; simpl.
  - lra.
  - rewrite (IH (a + x)), (IH (0 + x)). lra.
Qed.

Lemma sum_nil : sum [] == 0.
Proof. reflexivity. Qed.

Lemma sum_cons (x : Q) (l : list Q) : sum (x :: l) == x + sum l.
Proof.
  unfold sum; simpl. rewrite fold_left_Qplus_acc. lra.
Qed.

Lemma sum_app (l k : list Q) : sum (l ++ k) == sum l + sum k.
Proof.
  induction l as [|x l IH]; simpl.
  - rewrite sum_nil. lra.
  - rewrite !sum_cons, IH. lra.
Qed.

Lemma ofNat_S (n : nat) : ofNat (S n) == ofNat n + 1.
Proof.
  unfold ofNat. rewrite Nat2Z.inj_succ, <- Z.add_1_r, inject_Z_plus.
  reflexivity.
Qed.

Lemma ofNat_nonneg (n : nat) : 0 <= ofNat n.
Proof.
  unfold ofNat. change 0 with (inject_Z 0). rewrite <- Zle_Qle. lia.
Qed.

Lemma ofNat_pos (n : nat) : (0 < n)%nat -> 0 < ofNat n.
Proof.
  intros Hn. unfold ofNat. change 0 with (inject_Z 0).
  rewrite <- Zlt_Qlt. lia.
Qed.

Lemma ltb_lt (x y : Q) : ltb x y = true <-> x < y.
Proof.
  unfold ltb. rewrite negb_true_iff.
  destruct (Qle_bool y x) eqn:E.
  - apply Qle_bool_iff in E. split; [discriminate | lra].
  - split; [intros _ | reflexivity].
    apply Qnot_le_lt. intros H. apply Qle_bool_iff in H. congruence.
Qed.

Lemma ltb_ge (x y : Q) : ltb x y = false <-> y <= x.
Proof.
  destruct (ltb x y) eqn:E.
  - apply ltb_lt in E. split; [discriminate | lra].
  - split; [intros _ | reflexivity].
    apply Qnot_lt_le. intros H. apply ltb_lt in H. congruence.
Qed.

(** [Math.round] moves its argument by at most one half. *)
Lemma round_bounds (x : Q) : x - 0.5 < round x /\ round x <= x + 0.5.
Proof.
  unfold round. split.
  - pose proof (Qlt_floor (x + 0.5)) as H.
    rewrite inject_Z_plus in H. change (inject_Z 1) with 1 in H. lra.
  - apply Qfloor_le.
Qed.

Lemma round1_bounds (x : Q) : x - 0.05 < round1 x /\ round1 x <= x + 0.05.
Proof.
  unfold round1. destruct (round_bounds (x * 10)) as [Hl Hu].
  set (r := round (x * 10)) in *. split.
  - apply Qlt_shift_div_l; lra.
  - apply Qle_shift_div_r; lra.
Qed.

(** Rounding to an integer stays between integer bounds. *)
Lemma round_between (lo hi : Z) (x : Q) :
  inject_Z lo <= x -> x <= inject_Z hi ->
  inject_Z lo <= round x /\ round x <= inject_Z hi.
Proof.
  intros Hlo Hhi. unfold round. split.
  - rewrite <- Zle_Qle. rewrite <- (Qfloor_Z lo).
    apply Qfloor_resp_le. lra.
  - rewrite <- Zle_Qle.
    assert (Hlt : (Qfloor (x + 0.5) < hi + 1)%Z); [|lia].
    rewrite Zlt_Qlt. eapply Qle_lt_trans; [apply Qfloor_le|].
    rewrite inject_Z_plus. change (inject_Z 1) with 1.
    set (h := inject_Z hi) in *. clearbody h. lra.
Qed.

Lemma sum_Forall_bounds (a b : Q) (l : list Q) :
  Forall (fun t => a <= t /\ t <= b) l ->
  ofNat (length l) * a <= sum l /\ sum l <= ofNat (length l) * b.
Proof.
  induction 1 as [|t l [Ha Hb] _ [IHa IHb]].
  - rewrite sum_nil. change (ofNat (length [])) with 0. lra.
  - rewrite sum_cons. cbn [length]. rewrite ofNat_S. lra.
Qed.

End JsNumberFacts.

(** ** Facts about [calculateOptimalTimings] *)

Module TimingFacts.

Import JsString JsNumber JsNumberFacts Timing.
Local Open Scope Q_scope.

Lemma weighSegments_acc (segs : list string) (ws : list Q) (t : Q) :
  fold_left
    (fun acc segment =>
       let weight := segmentWeight segment in
       (fst acc ++ [weight], snd acc + weight))
    segs (ws, t)
  = (ws ++ map segmentWeight segs,
     fold_left Qplus (map segmentWeight segs) t).
Proof.
  revert ws t; induction segs as [|s segs IH]; intros ws t; simpl.
  - by rewrite app_nil_r.
  - rewrite IH. by rewrite <- app_assoc.
Qed.

Lemma weighSegments_eq (segs : list string) :
  weighSegments segs
  = (map segmentWeight segs, sum (map segmentWeight segs)).
Proof. unfold weighSegments. by rewrite weighSegments_acc. Qed.

Lemma initialTimings_eq (segs : list string) :
  initialTimings segs
  = map (clampedTiming (sum (map segmentWeight segs)) (targetDuration segs))
        (map segmentWeight segs).
Proof. unfold initialTimings. by rewrite weighSegments_eq. Qed.

Lemma initialTimings_length (segs : list string) :
  length (initialTimings segs) = length segs.
Proof. rewrite initialTimings_eq. by rewrite !length_map. Qed.

Lemma calculateOptimalTimings_length (segs : list string) :
  length (calculateOptimalTimings segs) = length segs.
Proof.
  unfold calculateOptimalTimings.
  destruct (outsideTargetRange _); rewrite ?length_map;
    apply initialTimings_length.
Qed.

Lemma segmentWeight_floor (s : string) : 2 <= segmentWeight s.
Proof. unfold segmentWeight. apply Q.le_max_r. Qed.

Lemma clampedTiming_inBand (W T w : Q) : inBand (clampedTiming W T w).
Proof.
  unfold clampedTiming, round1, inBand.
  set (fd := Qmax 2.5 (Qmin 12 (w / W * T))).
  assert (Hfd : 2.5 <= fd /\ fd <= 12).
  { subst fd. split; [apply Q.le_max_l|].
    apply Q.max_lub; [lra | apply Q.le_min_l]. }
  destruct (round_between 25 120 (fd * 10)) as [Hl Hu].
  { change (inject_Z 25) with 25. lra. }
  { change (inject_Z 120) with 120. lra. }
  change (inject_Z 25) with 25 in Hl. change (inject_Z 120) with 120 in Hu.
  split.
  - apply Qle_shift_div_l; lra.
  - apply Qle_shift_div_r; lra.
Qed.

Lemma initialTimings_inBand (segs : list string) :
  Forall inBand (initialTimings segs).
Proof.
  rewrite initialTimings_eq. apply Forall_map, Forall_forall.
  intros w _. apply clampedTiming_inBand.
Qed.

Lemma wordTotal_nonneg (segs : list string) (a : Q) :
  0 <= a ->
  0 <= fold_left (fun sum segment => sum + ofNat (wordCount segment)) segs a.
Proof.
  revert a; induction segs as [|s segs IH]; intros a Ha; simpl; [done|].
  apply IH. pose proof (ofNat_nonneg (wordCount s)). lra.
Qed.

Lemma avgWordsPerSegment_nonneg (segs : list string) :
  0 <= avgWordsPerSegment segs.
Proof.
  unfold avgWordsPerSegment.
  pose proof (wordTotal_nonneg segs 0 ltac:(lra)) as Hn.
  pose proof (ofNat_nonneg (length segs)) as Hd.
  set (n := fold_left _ _ _) in *. set (d := ofNat _) in *.
  unfold Qdiv. apply Qmult_le_0_compat; [done|].
  destruct (Qeq_dec d 0) as [E|E].
  - rewrite E. unfold Qinv; simpl. lra.
  - apply Qlt_le_weak, Qinv_lt_0_compat. lra.
Qed.

Lemma targetDuration_bounds (segs : list string) :
  25 <= targetDuration segs /\ targetDuration segs <= 40.
Proof.
  unfold targetDuration, complexityRatio,
    MIN_TARGET_DURATION, MAX_TARGET_DURATION.
  pose proof (avgWordsPerSegment_nonneg segs) as Ha.
  set (a := avgWordsPerSegment segs) in *.
  assert (H0 : 0 <= Qmin (a / 15) 1).
  { apply Q.min_glb; [|lra]. apply Qle_shift_div_l; lra. }
  pose proof (Q.le_min_r (a / 15) 1) as H1.
  set (c := Qmin _ _) in *. lra.
Qed.

Lemma rescaleTiming_bounds (f t : Q) :
  t * f - 0.05 <= rescaleTiming f t /\ rescaleTiming f t <= t * f + 0.05.
Proof.
  unfold rescaleTiming.
  destruct (round_bounds (t * f * 10)) as [Hl Hu].
  set (r := round _) in *. split.
  - apply Qle_shift_div_l; lra.
  - apply Qle_shift_div_r; lra.
Qed.

Lemma rescale_sum_bounds (f : Q) (l : list Q) :
  sum l * f - 0.05 * ofNat (length l) <= sum (map (rescaleTiming f) l)
  /\ sum (map (rescaleTiming f) l) <= sum l * f + 0.05 * ofNat (length l).
Proof.
  induction l as [|t l [IHl IHu]].
  - cbn [map length]. rewrite sum_nil. change (ofNat 0) with 0. lra.
  - cbn [map length]. rewrite !sum_cons, ofNat_S.
    destruct (rescaleTiming_bounds f t) as [Hl Hu]. lra.
Qed.


Lemma outsideTargetRange_false (x : Q) :
  outsideTargetRange x = false <-> 25 <= x /\ x <= 40.
Proof.
  unfold outsideTargetRange, MIN_TARGET_DURATION, MAX_TARGET_DURATION.
  rewrite orb_false_iff, !ltb_ge. tauto.
Qed.

Lemma initialTimings_sum_pos (segs : list string) :
  segs <> [] -> 0 < sum (initialTimings segs).
Proof.
  intros Hne.
  destruct (sum_Forall_bounds 2.5 12 (initialTimings segs)) as [Hl _].
  { apply initialTimings_inBand. }
  rewrite initialTimings_length in Hl.
  assert (Hn : 0 < ofNat (length segs)).
  { apply ofNat_pos. destruct segs; [done | simpl; lia]. }
  lra.
Qed.

(** The sum of the returned timings, with or without the rescale. *)
Lemma calculateOptimalTimings_sum_bounds (segs : list string) :
  segs <> [] ->
  25 - 0.05 * ofNat (length segs) <= sum (calculateOptimalTimings segs)
  /\ sum (calculateOptimalTimings segs) <= 40 + 0.05 * ofNat (length segs).
Proof.
  intros Hne.
  pose proof (initialTimings_sum_pos segs Hne) as Hpos.
  pose proof (targetDuration_bounds segs) as [HT1 HT2].
  pose proof (ofNat_nonneg (length segs)) as Hn.
  unfold calculateOptimalTimings.
  destruct (outsideTargetRange (sum (initialTimings segs))) eqn:E.
  - pose proof (rescale_sum_bounds
                  (targetDuration segs / sum (initialTimings segs))
                  (initialTimings segs)) as [Hl Hu].
    rewrite initialTimings_length in Hl, Hu.
    rewrite Qmult_div_r in Hl, Hu by lra. lra.
  - apply outsideTargetRange_false in E. lra.
Qed.

(** X28 ([calculateOptimalTimings]).  With one or two segments the
    returned plan always holds a timing above 12: two timings of at most
    12 cannot sum to 24.9. *)
Lemma short_plan_leaves_band (segs : list string) :
  (1 <= length segs <= 2)%nat ->
  Exists (fun t => 12 < t) (calculateOptimalTimings segs).
Proof.
  intros Hlen.
  assert (Hne : segs <> []) by (destruct segs; [simpl in Hlen; lia | done]).
  destruct (calculateOptimalTimings_sum_bounds segs Hne) as [Hlo _].
  pose proof (calculateOptimalTimings_length segs) as Hl.
  destruct (calculateOptimalTimings segs) as [|t1 [|t2 [|t3 r]]];
    simpl in Hl; try lia.
  - rewrite <- Hl in Hlo. change (ofNat 1) with 1 in Hlo.
    rewrite sum_cons, sum_nil in Hlo.
    apply Exists_cons_hd. lra.
  - rewrite <- Hl in Hlo. change (ofNat 2) with 2 in Hlo.
    rewrite !sum_cons, sum_nil in Hlo.
    destruct (Qlt_le_dec 12 t1) as [H1|H1]; [by apply Exists_cons_hd|].
    apply Exists_cons_tl, Exists_cons_hd. lra.
Qed.

End TimingFacts.

(** ** Claims about the timing allocator *)

Module TimingClaims.

Import JsString JsNumber JsNumberFacts Timing TimingFacts.
Local Open Scope Q_scope.

Ltac qminmax_elim :=
  repeat match goal with
  | |- context [Qmax ?a ?b] =>
      let m := fresh "m" in
      let H := fresh "Hm" in
      pose proof (Q.max_spec a b) as H;
      set (m := Qmax a b) in *; clearbody m
  | |- context [Qmin ?a ?b] =>
      let m := fresh "m" in
      let H := fresh "Hm" in
      pose proof (Q.min_spec a b) as H;
      set (m := Qmin a b) in *; clearbody m
  end.








(** C6, counterexample.  For the text "hi!" the base value is 1.26; the
    code boosts it to 1.512 and then floors it to 2, whereas flooring
    first and boosting afterwards gives 2.4. *)
Lemma specWeight_differs_below_floor :
  hasEmphasis "hi!" = true
  /\ baseWeight "hi!" == 1.26
  /\ segmentWeight "hi!" == 2
  /\ specWeight "hi!" == 2.4
  /\ ~ segmentWeight "hi!" == specWeight "hi!".
Proof.
  split; [by vm_compute|]. split; [by vm_compute|].
  split; [by vm_compute|]. split; [by vm_compute|].
  vm_compute. discriminate.
Qed.

(** C6 (amended).  The weight of a segment is the base value
    0.7 * words + 0.02 * chars + 0.5 * punctuation, multiplied by 1.2
    when the text has an emphasis marker and by 1.1 when it has
    call-to-action language, and the product is then floored at 2: the
    floor is applied after the boosts.  The result never exceeds the
    value obtained by flooring first, and equals it when the base value
    is at least 2. *)
Theorem segmentWeight_floor_after_boosts (s : string) :
  segmentWeight s
  == Qmax (baseWeight s
           * (if hasEmphasis s then 1.2 else 1)
           * (if hasCallToAction s then 1.1 else 1)) 2
  /\ 2 <= segmentWeight s
  /\ segmentWeight s <= specWeight s
  /\ (2 <= baseWeight s -> segmentWeight s == specWeight s).
Proof.
  unfold segmentWeight, specWeight.
  set (b := baseWeight s).
  destruct (hasEmphasis s), (hasCallToAction s);
    qminmax_elim; repeat split; intros;
    repeat match goal with
           | H : _ \/ _ |- _ => destruct H as [[? ?]|[? ?]]
           end; lra.
Qed.

Lemma segmentWeight_floor_after_boosts_witness :
  segmentWeight "Contact us today, this is important!"
  == specWeight "Contact us today, this is important!".
Proof.
  apply (segmentWeight_floor_after_boosts
           "Contact us today, this is important!").
  vm_compute. discriminate.
Defined.

End TimingClaims.

(** ** Further properties of the timing allocator *)

Module TimingOrder.

Import JsString JsNumber JsNumberFacts Timing TimingFacts.
Local Open Scope Q_scope.

Lemma round_mono (x y : Q) : x <= y -> round x <= round y.
Proof.
  intros H. unfold round. rewrite <- Zle_Qle.
  apply Qfloor_resp_le. lra.
Qed.

Lemma round1_mono (x y : Q) : x <= y -> round1 x <= round1 y.
Proof.
  intros H. unfold round1.
  pose proof (round_mono (x * 10) (y * 10) ltac:(lra)) as Hr.
  unfold Qdiv. apply Qmult_le_compat_r; [exact Hr | discriminate].
Qed.

Lemma clampedTiming_mono (W T w1 w2 : Q) :
  0 < W -> 0 <= T -> w1 <= w2 ->
  clampedTiming W T w1 <= clampedTiming W T w2.
Proof.
  intros HW HT Hw. unfold clampedTiming. apply round1_mono.
  assert (Hp : w1 / W * T <= w2 / W * T).
  { apply Qmult_le_compat_r; [|exact HT].
    unfold Qdiv. apply Qmult_le_compat_r; [exact Hw|].
    apply Qlt_le_weak, Qinv_lt_0_compat, HW. }
  apply Q.max_le_compat_l, Q.min_le_compat_l, Hp.
Qed.

Lemma rescaleTiming_mono (f t1 t2 : Q) :
  0 <= f -> t1 <= t2 -> rescaleTiming f t1 <= rescaleTiming f t2.
Proof.
  intros Hf Ht. unfold rescaleTiming.
  assert (Hm : t1 * f * 10 <= t2 * f * 10).
  { apply Qmult_le_compat_r; [|lra]. by apply Qmult_le_compat_r. }
  pose proof (round_mono _ _ Hm) as Hr.
  unfold Qdiv. apply Qmult_le_compat_r; [exact Hr | discriminate].
Qed.

Lemma totalWeight_pos (segs : list string) :
  segs <> [] -> 0 < sum (map segmentWeight segs).
Proof.
  intros Hne. destruct segs as [|s segs]; [done|].
  cbn [map]. rewrite sum_cons.
  pose proof (segmentWeight_floor s) as Hs.
  assert (Hrest : 0 <= sum (map segmentWeight segs)).
  { clear Hne Hs. induction segs as [|s' segs IH]; cbn [map].
    - rewrite sum_nil. lra.
    - rewrite sum_cons. pose proof (segmentWeight_floor s'). lra. }
  lra.
Qed.

(** X27 ([calculateOptimalTimings]).  The allocation respects the
    weights: of two segments of one request, the one with the larger
    weight never gets the shorter timing, with or without the final
    rescale. *)
Theorem heavier_segment_not_shorter (segs : list string) (i j : nat)
        (si sj : string) (ti tj : Q) :
  segs !! i = Some si -> segs !! j = Some sj ->
  calculateOptimalTimings segs !! i = Some ti ->
  calculateOptimalTimings segs !! j = Some tj ->
  segmentWeight si <= segmentWeight sj ->
  ti <= tj.
Proof.
  intros Hi Hj Hti Htj Hw.
  assert (Hne : segs <> []) by (intros ->; by rewrite lookup_nil in Hi).
  pose proof (totalWeight_pos segs Hne) as HW.
  pose proof (targetDuration_bounds segs) as [HT _].
  pose proof (initialTimings_sum_pos segs Hne) as Hact.
  assert (Hinit : forall k sk,
             segs !! k = Some sk ->
             initialTimings segs !! k
             = Some (clampedTiming (sum (map segmentWeight segs))
                                   (targetDuration segs)
                                   (segmentWeight sk))).
  { intros k sk Hk. rewrite initialTimings_eq.
    change (map ?f ?l) with (f <$> l). rewrite !list_lookup_fmap, Hk.
    done. }
  pose proof (clampedTiming_mono (sum (map segmentWeight segs))
                (targetDuration segs) _ _ HW ltac:(lra) Hw) as Hclamp.
  revert Hti Htj. unfold calculateOptimalTimings.
  destruct (outsideTargetRange _).
  - change (map ?f ?l) with (f <$> l).
    rewrite !list_lookup_fmap, (Hinit _ _ Hi), (Hinit _ _ Hj). simpl.
    intros [= <-] [= <-]. apply rescaleTiming_mono; [|exact Hclamp].
    apply Qle_shift_div_l; lra.
  - rewrite (Hinit _ _ Hi), (Hinit _ _ Hj). by intros [= <-] [= <-].
Qed.

Lemma heavier_segment_not_shorter_witness :
  exists ti tj,
    calculateOptimalTimings ["Welcome"; "Contact us today, it is key!"] !! 0%nat
    = Some ti
    /\ calculateOptimalTimings ["Welcome"; "Contact us today, it is key!"]
         !! 1%nat
       = Some tj
    /\ ti <= tj.
Proof.
  eexists _, _. split; [vm_compute; reflexivity|].
  split; [vm_compute; reflexivity|].
  apply (heavier_segment_not_shorter
           ["Welcome"; "Contact us today, it is key!"] 0 1
           "Welcome" "Contact us today, it is key!");
    [reflexivity | reflexivity | vm_compute; reflexivity
     | vm_compute; reflexivity |].
  vm_compute. discriminate.
Defined.

(** Witness of [short_plan_leaves_band]. *)
Lemma short_plan_leaves_band_witness :
  Exists (fun t => 12 < t)
         (calculateOptimalTimings ["Welcome"; "Contact us today!"]).
Proof.
  apply (short_plan_leaves_band ["Welcome"; "Contact us today!"]).
  simpl. lia.
Defined.

End TimingOrder.

(** ** Claims about the compositor *)

Module CompositorClaims.

Import JsNumber JsNumberFacts Compositor.
Local Open Scope Q_scope.

Lemma xfadeStep_fold (adjusted : list Q) (fade : Q) (indices : list nat)
      (chain : Label) (offset : Q) (filters : list Filter) :
  exists chain' offset',
    fold_left (xfadeStep adjusted fade) indices (chain, offset, filters)
    = (chain', offset',
       filters ++ xfadeFilters adjusted fade chain offset indices).
Proof.
  revert chain offset filters.
  induction indices as [|i rest IH]; intros chain offset filters; simpl.
  - exists chain, offset. by rewrite app_nil_r.
  - destruct (IH (Fade i)
                 (offset + (default 0 (adjusted !! (i - 1)%nat) - fade))
                 (filters ++
                    [Xfade chain (Scaled i) fade
                       (Qmax 0 (offset
                                + (default 0 (adjusted !! (i - 1)%nat)
                                   - fade)))
                       (Fade i)]))
      as (chain' & offset' & ->).
    exists chain', offset'. by rewrite <- app_assoc.
Qed.

Lemma xfades_zoomTrim (adjusted : list Q) (indices : list nat) :
  xfades (map (zoomTrimFilter adjusted) indices) = [].
Proof. induction indices as [|i rest IH]; [done | by simpl]. Qed.

Lemma xfades_app (l k : list Filter) : xfades (l ++ k) = xfades l ++ xfades k.
Proof. unfold xfades. apply omap_app. Qed.




(** The offsets of the transitions appended from index [S k] on, when
    [cumulativeOffset] accounts for the first [k] segments. *)
Lemma xfadeFilters_offsets (adjusted : list Q) (fade : Q) (len k : nat)
      (chain : Label) (offset : Q) :
  fade == 1 ->
  (k + len <= length adjusted)%nat ->
  offset == sum (take k adjusted) - ofNat k * 1 ->
  Forall2 (fun x i => snd x == specOffset adjusted i)
          (xfades (xfadeFilters adjusted fade chain offset (seq (S k) len)))
          (seq (S k) len).
Proof.
  intros Hfade. revert k chain offset; induction len as [|len IH];
    intros k chain offset Hlen Hoff; [constructor|].
  cbn [seq xfadeFilters xfades omap]. simpl (S k - 1)%nat.
  rewrite Nat.sub_0_r.
  destruct (lookup_lt_is_Some_2 adjusted k ltac:(lia)) as [t Ht].
  rewrite Ht. cbn [default].
  assert (Hnext : offset + (t - fade)
                  == sum (take (S k) adjusted) - ofNat (S k) * 1).
  { rewrite (take_S_r _ _ _ Ht), sum_app, sum_cons, sum_nil, ofNat_S.
    rewrite Hoff, Hfade. lra. }
  constructor.
  - cbn [snd]. unfold specOffset.
    destruct (Q.max_spec 0 (offset + (t - fade))) as [[? ->]|[? ->]];
      destruct (Q.max_spec 0 (sum (take (S k) adjusted) - ofNat (S k) * 1))
        as [[? ->]|[? ->]]; lra.
  - apply (IH (S k)); [lia | exact Hnext].
Qed.

(** X30 ([createVideoWithFFmpeg]).  The offsets that the transition loop
    accumulates have a closed form: transition [i] starts at the sum of
    the first [i] durations minus [i] crossfade durations, or at zero
    when that is negative. *)
Lemma transition_offsets (n : nat) (adjusted : list Q) :
  (2 <= n)%nat -> length adjusted = n ->
  Forall2 (fun x i => snd x == specOffset adjusted i)
          (xfades (buildFilterComplex n adjusted)) (seq 1 (n - 1)).
Proof.
  intros Hn Hlen. unfold buildFilterComplex.
  assert (E : (1 <? n)%nat = true) by (apply Nat.ltb_lt; lia).
  rewrite E.
  destruct (xfadeStep_fold adjusted (fadeDuration n) (seq 1 (n - 1))
              (Scaled 0) 0 (map (zoomTrimFilter adjusted) (seq 0 n)))
    as (chain' & offset' & ->).
  rewrite !xfades_app, xfades_zoomTrim. simpl (xfades [_]).
  rewrite app_nil_r, app_nil_l.
  unfold fadeDuration. rewrite E.
  apply xfadeFilters_offsets; [reflexivity | lia |].
  rewrite take_0, sum_nil. change (ofNat 0) with 0. lra.
Qed.







(** X29 ([createVideoWithFFmpeg]).  After a rescale the
    crossfade-adjusted duration of the new timings is the target: the
    video then lasts as long as the clamped audio. *)
Lemma adjusted_duration_is_target (n : nat) (audioDuration : Q)
      (timings : list Q) :
  0 < sum timings ->
  needsAdjustment n audioDuration timings = true ->
  calculatedVideoDuration n (adjustedTimings n audioDuration timings)
  == targetDuration audioDuration.
Proof.
  intros Hpos Hadj. unfold adjustedTimings. rewrite Hadj.
  unfold calculatedVideoDuration, rawVideoDuration.
  assert (Hmap : forall (f : Q) (l : list Q),
             sum (map (fun t => t * f) l) == sum l * f).
  { intros f l. induction l as [|t l IH]; simpl.
    - rewrite sum_nil. lra.
    - rewrite !sum_cons, IH. lra. }
  rewrite Hmap. unfold scaleFactor, rawVideoDuration, targetRawDuration.
  rewrite Qmult_div_r by lra. lra.
Qed.

End CompositorClaims.

(** ** Further properties of the compositor *)

Module CompositorFacts.

Import JsNumber JsNumberFacts Compositor.
Local Open Scope Q_scope.

Lemma adjustedTimings_length (n : nat) (audioDuration : Q)
      (timings : list Q) :
  length (adjustedTimings n audioDuration timings) = length timings.
Proof.
  unfold adjustedTimings. destruct (needsAdjustment _ _ _); [|done].
  apply length_map.
Qed.

Lemma imageInputDurations_take (n : nat) (adjusted : list Q) :
  (n <= length adjusted)%nat ->
  imageInputDurations n adjusted = Some (take n adjusted).
Proof.
  intros Hn. unfold imageInputDurations. apply mapM_Some.
  apply Forall2_same_length_lookup. split.
  - rewrite length_seq, length_take. lia.
  - intros i x y Hx Hy. apply lookup_seq in Hx as [-> Hi].
    rewrite lookup_take_lt in Hy by lia. done.
Qed.

Lemma imageInputDurations_short (n : nat) (adjusted : list Q) :
  (length adjusted < n)%nat -> imageInputDurations n adjusted = None.
Proof.
  intros Hn. unfold imageInputDurations.
  destruct (mapM _ _) as [k|] eqn:E; [|done].
  apply mapM_Some in E.
  assert (Hin : seq 0 n !! length adjusted = Some (length adjusted)).
  { apply lookup_seq. split; [done | lia]. }
  destruct (Forall2_lookup_l _ _ _ _ _ E Hin) as (y & _ & Hy).
  apply lookup_lt_Some in Hy. lia.
Qed.

(** Three timings of 12 s against an audio of 30 s. *)
Lemma adjusted_duration_is_target_witness :
  calculatedVideoDuration 3 (adjustedTimings 3 30 [12; 12; 12])
  == targetDuration 30.
Proof.
  apply (CompositorClaims.adjusted_duration_is_target 3 30 [12; 12; 12]).
  - vm_compute. reflexivity.
  - vm_compute. reflexivity.
Defined.

Lemma transition_offsets_witness :
  Forall2 (fun x i => snd x == specOffset [5; 6; 7] i)
          (xfades (buildFilterComplex 3 [5; 6; 7])) (seq 1 (3 - 1)).
Proof.
  apply (CompositorClaims.transition_offsets 3 [5; 6; 7]).
  - lia.
  - reflexivity.
Defined.

End CompositorFacts.

(** ** Claims about the broadcaster *)

Module BroadcasterClaims.

Import Broadcaster.
Local Open Scope Q_scope.

Lemma setAdd_nonempty (ws : Socket) (clients : list Socket) :
  setAdd ws clients <> [].
Proof.
  unfold setAdd. case_decide as Hin.
  - intros ->. by apply not_elem_of_nil in Hin.
  - by destruct clients.
Qed.

Lemma onMessage_noEmptyRecord ws message videoSessions :
  noEmptyRecord videoSessions ->
  noEmptyRecord (onMessage ws message videoSessions).
Proof.
  intros Hinv sid clients. unfold onMessage.
  destruct (_ && _); [|apply Hinv].
  rewrite lookup_alter. case_decide as Hsid.
  - subst sid.
    destruct (videoSessions !! messageSessionId message) as [l|] eqn:E.
    + rewrite E. simpl. intros [= <-]. apply setAdd_nonempty.
    + rewrite lookup_insert_eq. simpl. intros [= <-].
      apply setAdd_nonempty.
  - destruct (videoSessions !! messageSessionId message) as [l|] eqn:E.
    + apply Hinv.
    + rewrite lookup_insert_ne by done. apply Hinv.
Qed.

Lemma onClose_noEmptyRecord ws videoSessions :
  noEmptyRecord (onClose ws videoSessions).
Proof.
  intros sid clients. unfold onClose. rewrite lookup_omap.
  destruct (videoSessions !! sid) as [l|]; simpl; [|done].
  case_decide as Hlen; [done|]. intros [= <-] Hnil.
  by rewrite Hnil in Hlen.
Qed.

Lemma broadcastProgress_noEmptyRecord isOpen sid stepName progressValue
      completionData videoSessions :
  noEmptyRecord videoSessions ->
  noEmptyRecord (fst (broadcastProgress isOpen sid stepName progressValue
                                        completionData videoSessions)).
Proof.
  intros Hinv sid' clients. unfold broadcastProgress.
  destruct (videoSessions !! sid); simpl; [|apply Hinv].
  destruct (isTerminal stepName); [|apply Hinv].
  intros H. apply lookup_delete_Some in H as [_ H]. by eapply Hinv.
Qed.

(** No record of a reachable registry is empty: a record is created with
    its first handle and removed with its last. *)
Lemma Reachable_noEmptyRecord videoSessions :
  Reachable videoSessions -> noEmptyRecord videoSessions.
Proof.
  induction 1.
  - intros sid clients. by rewrite lookup_empty.
  - by apply onMessage_noEmptyRecord.
  - apply onClose_noEmptyRecord.
  - by apply broadcastProgress_noEmptyRecord.
Qed.

(** C10.  In a reachable registry, publishing for a session identifier
    without registered handles sends nothing and returns the registry
    as it was: no record is created and nothing is kept for a later
    subscriber. *)
Theorem publish_without_subscribers (isOpen : Socket -> bool)
        (sid stepName : string) (progressValue : Q)
        (completionData : option CompletionData)
        (videoSessions : gmap string (list Socket)) :
  Reachable videoSessions ->
  subscribers sid videoSessions = [] ->
  broadcastProgress isOpen sid stepName progressValue completionData
                    videoSessions
  = (videoSessions, []).
Proof.
  intros Hreach Hnone. unfold broadcastProgress.
  destruct (videoSessions !! sid) as [clients|] eqn:E; [|done].
  unfold subscribers in Hnone. rewrite E in Hnone. simpl in Hnone.
  by apply (Reachable_noEmptyRecord _ Hreach) in E.
Qed.

Lemma publish_without_subscribers_witness :
  broadcastProgress (fun _ => true) "s" "completed" 100 None
                    (onMessage 1%nat (subscribeMessage "t") ∅)
  = (onMessage 1%nat (subscribeMessage "t") ∅, []).
Proof.
  apply publish_without_subscribers.
  - apply reach_message, reach_empty.
  - reflexivity.
Defined.

(** C9, counterexample.  Socket 1 subscribes to session "s", the
    terminal event "completed" is broadcast and removes the record;
    socket 2 then subscribes to "s" and is registered under it. *)
Lemma resubscribe_after_terminal :
  subscribers "s"
    (onMessage 2%nat (subscribeMessage "s")
       (fst (broadcastProgress (fun _ => true) "s" "completed" 100 None
               (onMessage 1%nat (subscribeMessage "s") ∅))))
  = [2%nat]
  /\ ~ sealedAfterTerminal (fun _ => true) "s" 2%nat
         (onMessage 1%nat (subscribeMessage "s") ∅).
Proof.
  split; [by vm_compute|]. unfold sealedAfterTerminal.
  vm_compute. discriminate.
Qed.

(** C9 (amended).  A terminal broadcast leaves no record under the
    session identifier; the identifier is not blocked: a later
    subscription creates a fresh record that holds the new handle
    only. *)
Theorem terminal_removes_record (isOpen : Socket -> bool)
        (sid stepName : string) (progressValue : Q)
        (completionData : option CompletionData)
        (videoSessions : gmap string (list Socket)) (ws : Socket) :
  isTerminal stepName = true ->
  sid <> ""%string ->
  fst (broadcastProgress isOpen sid stepName progressValue completionData
                         videoSessions) !! sid = None
  /\ subscribers sid
       (onMessage ws (subscribeMessage sid)
          (fst (broadcastProgress isOpen sid stepName progressValue
                                  completionData videoSessions)))
     = [ws].
Proof.
  intros Hterm Hsid.
  assert (Hgone :
    fst (broadcastProgress isOpen sid stepName progressValue completionData
                           videoSessions) !! sid = None).
  { unfold broadcastProgress.
    destruct (videoSessions !! sid) eqn:E; simpl; [|done].
    rewrite Hterm. apply lookup_delete_eq. }
  split; [exact Hgone|].
  unfold subscribers, onMessage, subscribeMessage. simpl.
  apply String.eqb_neq in Hsid. rewrite Hsid. simpl.
  rewrite Hgone. rewrite lookup_alter, decide_True by done.
  by rewrite lookup_insert_eq.
Qed.

Lemma terminal_removes_record_witness :
  subscribers "s"
    (onMessage 2%nat (subscribeMessage "s")
       (fst (broadcastProgress (fun _ => true) "s" "error" 0 None
               (onMessage 1%nat (subscribeMessage "s") ∅))))
  = [2%nat].
Proof.
  apply (terminal_removes_record (fun _ => true) "s" "error" 0 None
           (onMessage 1%nat (subscribeMessage "s") ∅) 2%nat).
  - reflexivity.
  - discriminate.
Defined.

End BroadcasterClaims.

(** ** Claims about the pipeline coordinator *)

Module PipelineClaims.

Import JsString JsNumber Broadcaster Pipeline.
Local Open Scope Q_scope.

(** *** Generic facts about the monad *)

Lemma bind_return_inv {A B : Type} (m : M A) (k : A -> M B) (st : State)
      (b : B) (st' : State) (out : list Publication) :
  (m ≫= k) st = (Return b, st', out) ->
  exists a st1 out1 out2,
    m st = (Return a, st1, out1)
    /\ k a st1 = (Return b, st', out2)
    /\ out = out1 ++ out2.
Proof.
  unfold mbind, M_bind.
  destruct (m st) as [[[a|e] st1] out1]; [|discriminate].
  destruct (k a st1) as [[r st2] out2] eqn:Ek.
  intros [= -> -> <-]. by exists a, st1, out1, out2.
Qed.

Lemma publish_shape (o : Outcomes) (sid stepName : string) (p : Q)
      (d : option CompletionData) (st : State) :
  exists st' sent,
    publish o sid stepName p d st
    = (Return tt, st',
       [{| pubSessionId := sid; pubStep := stepName; pubProgress := p;
           pubData := d; pubSent := sent |}]).
Proof.
  unfold publish. destruct (broadcastProgress _ _ _ _ _ _) as [reg sent].
  by eexists _, sent.
Qed.

Lemma publish_return_steps (o : Outcomes) (sid stepName : string) (p : Q)
      (d : option CompletionData) (st st' : State) (r : Result unit)
      (out : list Publication) :
  publish o sid stepName p d st = (r, st', out) ->
  map pubStep out = [stepName].
Proof.
  destruct (publish_shape o sid stepName p d st) as (st1 & sent & ->).
  by intros [= _ _ <-].
Qed.

Lemma forEach_unlink_silent (paths : list Path) (st : State) :
  exists st', forEach unlinkIfExists paths st = (Return tt, st', []).
Proof.
  revert st; induction paths as [|p paths IH]; intros st; cbn [forEach].
  - by exists st.
  - destruct (IH (setFiles (fun fs => fs ∖ {[p]}) st)) as (st' & Hrest).
    exists st'. unfold mbind, M_bind.
    change (unlinkIfExists p st)
      with (Return tt, setFiles (fun fs => fs ∖ {[p]}) st,
            @nil Publication).
    cbv beta iota. by rewrite Hrest.
Qed.

(** *** The encoder stage and its output file *)

Lemma handlerProgress_quiet (o : Outcomes) (sid : string) :
  quietCallback (handlerProgress o sid).
Proof.
  intros stepName p st. unfold handlerProgress, publish.
  destruct (broadcastProgress _ _ _ _ _ _) as [reg sent].
  by eexists _, _.
Qed.

Lemma reportEncodeProgress_quiet (cb : ProgressCallback) (target : Q)
      (times : list Q) (st : State) :
  quietCallback cb ->
  exists st' out,
    reportEncodeProgress cb target times st = (Return tt, st', out)
    /\ files st' = files st.
Proof.
  intros Hcb. revert st; induction times as [|t times IH]; intros st;
    cbn [reportEncodeProgress].
  - by eexists _, _.
  - unfold mbind, M_bind.
    destruct (Hcb "creating-video"%string
                  (Qmin 95 (30 + t / target * 65)) st)
      as (st1 & out1 & -> & Hf1).
    destruct (IH st1) as (st2 & out2 & -> & Hf2).
    eexists _, _. split; [reflexivity | congruence].
Qed.

Ltac run_callback Hcb :=
  match goal with
  | |- context [?cb ?s ?p ?x] =>
      lazymatch type of Hcb with
      | quietCallback cb =>
          let st := fresh "st" in
          let out := fresh "out" in
          let Hf := fresh "Hfiles" in
          destruct (Hcb s p x) as (st & out & -> & Hf); cbv beta iota
      end
  end.

Section Encoder.

Variable o : Outcomes.
Variable images : list Path.
Variable audio : Path.
Variable timings : list Q.
Variable cb : ProgressCallback.
Variable audioSeconds : Q.

Hypothesis cb_quiet : quietCallback cb.
Hypothesis audio_probed : audioProbe o = ProbeOk audioSeconds.
Hypothesis durations_defined :
  is_Some (Compositor.imageInputDurations
             (length images)
             (Compositor.adjustedTimings (length images) audioSeconds
                                         timings)).

(** The timeout path: the process is killed, the output file removed and
    the timeout error thrown. *)
Lemma createVideoWithFFmpeg_timeout (st : State) :
  ffmpeg o = FfmpegTimeout ->
  exists st' out,
    createVideoWithFFmpeg o images audio timings cb st
    = (Throw ("FFmpeg timeout after 120 seconds. Stderr: "
              +:+ ffmpegStderr o), st', out)
    /\ ffmpegKilled st' = true
    /\ TmpVideo ∉ files st'.
Proof.
  intros Hff. unfold createVideoWithFFmpeg, mbind, M_bind.
  do 2 run_callback cb_quiet.
  rewrite audio_probed. cbn [getMediaDuration]. unfold mret, M_ret.
  cbv beta iota. run_callback cb_quiet.
  destruct durations_defined as [ds ->]. run_callback cb_quiet.
  rewrite Hff.
  destruct (ffmpegWroteOutput o); unfold writeFileSync, modify;
    cbv beta iota;
    match goal with
    | |- context [reportEncodeProgress cb ?t ?ts ?x] =>
        destruct (reportEncodeProgress_quiet cb t ts x cb_quiet)
          as (st5 & out5 & -> & Hf5)
    end;
    unfold killFfmpeg, unlinkIfExists, modify, throw; cbv beta iota;
    eexists _, _; (split; [reflexivity|]); (split; [reflexivity|]);
    cbn [files setFiles]; rewrite elem_of_difference, elem_of_singleton;
    tauto.
Qed.

(** The path of a non-zero exit code removes the output file too. *)
Lemma createVideoWithFFmpeg_failure (st : State) (code : Z) :
  ffmpeg o = FfmpegClose code -> code <> 0%Z ->
  exists st' out,
    createVideoWithFFmpeg o images audio timings cb st
    = (Throw ("FFmpeg failed with code " +:+ pretty code +:+ ": "
              +:+ ffmpegStderr o), st', out)
    /\ TmpVideo ∉ files st'.
Proof.
  intros Hff Hcode. unfold createVideoWithFFmpeg, mbind, M_bind.
  do 2 run_callback cb_quiet.
  rewrite audio_probed. cbn [getMediaDuration]. unfold mret, M_ret.
  cbv beta iota. run_callback cb_quiet.
  destruct durations_defined as [ds ->]. run_callback cb_quiet.
  rewrite Hff. rewrite decide_False by done.
  destruct (ffmpegWroteOutput o); unfold writeFileSync, modify;
    cbv beta iota;
    match goal with
    | |- context [reportEncodeProgress cb ?t ?ts ?x] =>
        destruct (reportEncodeProgress_quiet cb t ts x cb_quiet)
          as (st5 & out5 & -> & Hf5)
    end;
    unfold unlinkIfExists, modify, throw; cbv beta iota;
    eexists _, _; (split; [reflexivity|]);
    cbn [files setFiles]; rewrite elem_of_difference, elem_of_singleton;
    tauto.
Qed.

(** The path that misses the removal: exit code 0, then the probe of the
    output fails. *)
Lemma createVideoWithFFmpeg_probe_failure (st : State) (code : Z) :
  ffmpeg o = FfmpegClose 0 -> ffmpegWroteOutput o = true ->
  videoProbe o = ProbeExit code ->
  exists st' out,
    createVideoWithFFmpeg o images audio timings cb st
    = (Throw ("Failed to get video duration: FFprobe failed with code "
              +:+ pretty code), st', out)
    /\ TmpVideo ∈ files st'.
Proof.
  intros Hff Hwrote Hprobe. unfold createVideoWithFFmpeg, mbind, M_bind.
  do 2 run_callback cb_quiet.
  rewrite audio_probed. cbn [getMediaDuration]. unfold mret, M_ret.
  cbv beta iota. run_callback cb_quiet.
  destruct durations_defined as [ds ->]. run_callback cb_quiet.
  rewrite Hff, Hwrote. rewrite decide_True by done.
  unfold writeFileSync, modify. cbv beta iota.
  match goal with
  | |- context [reportEncodeProgress cb ?t ?ts ?x] =>
      destruct (reportEncodeProgress_quiet cb t ts x cb_quiet)
        as (st5 & out5 & -> & Hf5)
  end.
  unfold tryCatch. run_callback cb_quiet.
  rewrite Hprobe. cbn [getMediaDuration]. unfold throw. cbv beta iota.
  eexists _, _. split; [reflexivity|].
  repeat match goal with
         | H : files ?a = _ |- context [files ?a] => rewrite H
         end.
  cbn [files setFiles]. apply elem_of_union_r, elem_of_singleton.
  reflexivity.
Qed.

End Encoder.

(** *** Order of the published steps *)

Section Run.

Variable o : Outcomes.
Variable sid : string.
Variable imagePrompts : list ImagePrompt.

Local Abbreviation onProgress := (handlerProgress o sid).

Lemma generateVideoFinally_steps (st : State) :
  exists st' out,
    generateVideoFinally onProgress st = (Return tt, st', out)
    /\ map pubStep out = ["finalizing"].
Proof.
  unfold generateVideoFinally, handlerProgress, mbind, M_bind.
  destruct (publish_shape o sid "finalizing" 95 None st)
    as (st1 & sent & ->).
  unfold gets.
  destruct (forEach_unlink_silent (imagePaths st1) st1) as (st2 & ->).
  destruct (audioPath st2); unfold unlinkIfExists, modify;
    eexists _, _; (split; [reflexivity | done]).
Qed.

Lemma generateVideoCatch_steps (e : string) (st : State) :
  exists st' out,
    generateVideoCatch onProgress e st = (Throw e, st', out)
    /\ map pubStep out = ["error"].
Proof.
  unfold generateVideoCatch, handlerProgress, mbind, M_bind, throw.
  destruct (publish_shape o sid "error" 0 None st) as (st1 & sent & ->).
  eexists _, _. split; [reflexivity | done].
Qed.

Lemma generateVideoTry_return_steps (st st' : State)
      (r : VideoGenerationResult) (out : list Publication) :
  generateVideoTry o imagePrompts onProgress st = (Return r, st', out) ->
  exists pre, map pubStep out = pre ++ ["completed"].
Proof.
  unfold generateVideoTry. intros H.
  repeat (apply bind_return_inv in H as (? & ? & ? & ? & ? & H & ->)).
  match goal with
  | Hpub : onProgress "completed" _ _ = _ |- _ =>
      unfold onProgress in Hpub; apply publish_return_steps in Hpub;
      rename Hpub into Hcompleted
  end.
  injection H as _ _ <-.
  rewrite !map_app, Hcompleted, app_nil_r, !app_assoc. by eexists.
Qed.

Lemma generateVideo_steps (st : State) :
  exists pre terminal,
    isTerminal terminal = true
    /\ publishedSteps (generateVideo o imagePrompts onProgress st)
       = pre ++ [terminal; "finalizing"].
Proof.
  unfold publishedSteps, publications, generateVideo.
  unfold mbind at 1. unfold M_bind, modify.
  set (st0 := {| files := files st; videoSessions := videoSessions st;
                 audioPath := None; imagePaths := [];
                 ffmpegKilled := ffmpegKilled st |}).
  unfold tryFinally, tryCatch.
  destruct (generateVideoTry o imagePrompts onProgress st0)
    as [[[r|e] st1] out1] eqn:Etry.
  - destruct (generateVideoFinally_steps st1) as (st2 & out2 & -> & Hfin).
    apply generateVideoTry_return_steps in Etry as [pre Hpre].
    exists pre, "completed"%string. split; [done|].
    simpl. rewrite map_app, Hpre, Hfin. by rewrite <- app_assoc.
  - destruct (generateVideoCatch_steps e st1)
      as (st1' & outc & -> & Hcatch).
    destruct (generateVideoFinally_steps st1') as (st2 & out2 & -> & Hfin).
    exists (map pubStep out1), "error"%string. split; [done|].
    simpl. rewrite !map_app, Hcatch, Hfin. by rewrite <- app_assoc.
Qed.

Lemma terminalIsLast_broken (pre post : list string) (t x : string) :
  isTerminal t = true -> isTerminal x = false ->
  terminalIsLast (pre ++ t :: x :: post) = false.
Proof.
  intros Ht Hx. induction pre as [|s pre IH]; simpl.
  - by rewrite Ht, Hx.
  - rewrite IH. apply andb_false_r.
Qed.

Lemma runVideoGeneration_steps (st : State) :
  exists pre terminal post,
    isTerminal terminal = true
    /\ publishedSteps (runVideoGeneration o sid imagePrompts st)
       = pre ++ terminal :: "finalizing"%string :: post.
Proof.
  destruct (generateVideo_steps st) as (pre & t & Ht & Hgen).
  unfold publishedSteps, publications in *.
  unfold runVideoGeneration, tryCatch.
  unfold mbind at 1. unfold M_bind.
  destruct (generateVideo o imagePrompts onProgress st)
    as [[[r|e] st1] out1]; simpl in Hgen.
  - destruct ((renameSync o (videoPath r) PublicVideo ≫= _) st1)
      as [[[u|e] st2] out2].
    + exists pre, t, (map pubStep out2). split; [done|].
      simpl. rewrite map_app, Hgen. by rewrite <- app_assoc.
    + destruct (publish_shape o sid "error" 0
                  (Some (classifyError e)) st2) as (st3 & sent & ->).
      exists pre, t, (map pubStep out2 ++ ["error"%string]).
      split; [done|].
      simpl. rewrite !map_app, Hgen. simpl. by rewrite <- !app_assoc.
  - destruct (publish_shape o sid "error" 0
                (Some (classifyError e)) st1) as (st3 & sent & ->).
    exists pre, t, ["error"%string]. split; [done|].
    simpl. rewrite map_app, Hgen. by rewrite <- app_assoc.
Qed.

End Run.

(** *** The claims *)

(** C2.  In every run a terminal step is published and the step
    "finalizing" is published right after it, so that the terminal event
    is not the last published event of the run. *)
Theorem finalizing_published_after_terminal (o : Outcomes) (sid : string)
        (imagePrompts : list ImagePrompt) (st : State) :
  terminalIsLast (publishedSteps (runVideoGeneration o sid imagePrompts st))
  = false.
Proof.
  destruct (runVideoGeneration_steps o sid imagePrompts st)
    as (pre & t & post & Ht & ->).
  by apply terminalIsLast_broken.
Qed.

(** The published and the received steps of a run where every external
    operation succeeds: the subscriber receives nothing after the first
    "completed", which carries no payload; "finalizing" and the
    "completed" with the payload are published to a removed session. *)
Lemma successful_run_steps :
  publishedSteps (runWith (allSucceed 30 30))
  = [ "initializing"; "calculating-timings";
      "generating-audio"; "generating-audio"; "generating-audio";
      "generating-audio";
      "generating-images"; "generating-images"; "generating-images";
      "generating-images"; "generating-images";
      "creating-video"; "creating-video"; "creating-video";
      "creating-video"; "creating-video"; "creating-video";
      "completed"; "finalizing"; "completed" ]
  /\ receivedSteps 7%nat (runWith (allSucceed 30 30))
     = [ "initializing"; "calculating-timings";
         "generating-audio"; "generating-audio"; "generating-audio";
         "generating-audio";
         "generating-images"; "generating-images"; "generating-images";
         "generating-images"; "generating-images";
         "creating-video"; "creating-video"; "creating-video";
         "creating-video"; "creating-video"; "creating-video";
         "completed" ]
  /\ concat (map pubSent
                 (drop 18 (publications (runWith (allSucceed 30 30)))))
     = [].
Proof.
  split; [vm_compute; reflexivity|].
  split; vm_compute; reflexivity.
Qed.

(** C3.  When the encoder exits with code 0 and the probe of its output
    fails, the run ends with the encoder output still in the temporary
    directory; when the second image request fails, the first image file
    stays.  After a run where everything succeeds only the public video
    exists. *)
Theorem temporary_files_left_behind :
  leftovers (finalState (runWith probeFailsAfterEncode)) = {[TmpVideo]}
  /\ leftovers (finalState (runWith secondImageFails)) = {[TmpImage 1]}
  /\ leftovers (finalState (runWith encoderFails)) = ∅
  /\ leftovers (finalState (runWith encoderTimesOut)) = ∅
  /\ files (finalState (runWith (allSucceed 30 30))) = {[PublicVideo]}.
Proof.
  split; [vm_compute; reflexivity|]. split; [vm_compute; reflexivity|].
  split; [vm_compute; reflexivity|]. split; vm_compute; reflexivity.
Qed.

(** C4.  When the encoder times out the process is killed and the
    partial output is deleted, but the error is reported with the code
    INTERNAL_ERROR: the text of the timeout error does not contain
    "FFmpeg failed", which is what selects VIDEO_PROCESSING_ERROR (as it
    does for a non-zero exit code). *)
Theorem encoder_timeout_reported_as_internal_error :
  ffmpegKilled (finalState (runWith encoderTimesOut)) = true
  /\ (TmpVideo ∉ files (finalState (runWith encoderTimesOut)))
  /\ (errorCode <$> lastData (runWith encoderTimesOut))
     = Some "INTERNAL_ERROR"%string
  /\ classifyError "FFmpeg timeout after 120 seconds. Stderr: "
     = Failure "INTERNAL_ERROR" "Video generation failed"
               "An unexpected error occurred"
  /\ (errorCode <$> lastData (runWith encoderFails))
     = Some "VIDEO_PROCESSING_ERROR"%string.
Proof.
  split; [vm_compute; reflexivity|]. split.
  - assert (Hf : files (finalState (runWith encoderTimesOut)) = ∅)
      by (vm_compute; reflexivity).
    rewrite Hf. apply not_elem_of_empty.
  - split; [vm_compute; reflexivity|].
    split; vm_compute; reflexivity.
Qed.

End PipelineClaims.

(** ** Further properties of the session registry *)

Module BroadcasterFacts.

Import Broadcaster.
Local Open Scope Q_scope.

Lemma setAdd_NoDup (ws : Socket) (clients : list Socket) :
  NoDup clients -> NoDup (setAdd ws clients).
Proof.
  intros Hnd. unfold setAdd. case_decide as Hin; [done|].
  apply NoDup_app. split; [done|]. split.
  - intros x Hx Hx'. apply list_elem_of_singleton in Hx'. by subst.
  - apply NoDup_singleton.
Qed.

Lemma setDelete_NoDup (ws : Socket) (clients : list Socket) :
  NoDup clients -> NoDup (setDelete ws clients).
Proof. intros Hnd. unfold setDelete. by apply NoDup_filter. Qed.

Lemma elem_of_setAdd (ws x : Socket) (clients : list Socket) :
  x ∈ setAdd ws clients <-> x = ws \/ x ∈ clients.
Proof.
  unfold setAdd. case_decide as Hin.
  - split; [by right | intros [->|?]; done].
  - rewrite elem_of_app, list_elem_of_singleton. tauto.
Qed.

Lemma elem_of_setDelete (ws x : Socket) (clients : list Socket) :
  x ∈ setDelete ws clients <-> x <> ws /\ x ∈ clients.
Proof. unfold setDelete. by rewrite list_elem_of_filter. Qed.

Lemma setDelete_setAdd (ws : Socket) (clients : list Socket) :
  setDelete ws (setAdd ws clients) = setDelete ws clients.
Proof.
  unfold setAdd, setDelete. case_decide as Hin; [done|].
  rewrite filter_app. simpl.
  rewrite (filter_cons_False _ ws []) by (intros H; by apply H).
  by rewrite filter_nil, app_nil_r.
Qed.

(** Every record of a reachable registry lists its sockets once. *)
Lemma Reachable_noDuplicates videoSessions :
  Reachable videoSessions ->
  forall sid clients, videoSessions !! sid = Some clients -> NoDup clients.
Proof.
  induction 1 as [|ws message reg _ IH|ws reg _ IH
                  |isOpen sid stepName p d reg _ IH].
  - intros sid clients. by rewrite lookup_empty.
  - intros sid clients. unfold onMessage.
    destruct (_ && _); [|apply IH].
    rewrite lookup_alter. case_decide as Hsid.
    + subst sid.
      destruct (reg !! messageSessionId message) as [l|] eqn:E.
      * rewrite E. simpl. intros [= <-]. apply setAdd_NoDup.
        by apply (IH _ _ E).
      * rewrite lookup_insert_eq. simpl. intros [= <-].
        apply setAdd_NoDup, NoDup_nil_2.
    + destruct (reg !! messageSessionId message) as [l|] eqn:E.
      * apply IH.
      * rewrite lookup_insert_ne by done. apply IH.
  - intros sid clients. unfold onClose. rewrite lookup_omap.
    destruct (reg !! sid) as [l|] eqn:E; simpl; [|done].
    case_decide; [done|]. intros [= <-].
    apply setDelete_NoDup. by apply (IH _ _ E).
  - intros sid' clients. unfold broadcastProgress.
    destruct (reg !! sid); simpl; [|apply IH].
    destruct (isTerminal stepName); [|apply IH].
    intros H. apply lookup_delete_Some in H as [_ H]. by eapply IH.
Qed.

(** X1.  A broadcast for a session reaches exactly the open sockets
    registered under that session, each of them once, and every message
    sent carries the session identifier, the step and the payload of the
    call; a socket registered only under other sessions receives
    nothing. *)
Theorem broadcast_reaches_session_only (isOpen : Socket -> bool)
        (sid stepName : string) (progressValue : Q)
        (completionData : option CompletionData)
        (videoSessions : gmap string (list Socket)) :
  Reachable videoSessions ->
  NoDup (map fst (snd (broadcastProgress isOpen sid stepName progressValue
                                         completionData videoSessions)))
  /\ (forall ws,
        ws ∈ map fst (snd (broadcastProgress isOpen sid stepName
                             progressValue completionData videoSessions))
        <-> ws ∈ subscribers sid videoSessions /\ isOpen ws = true)
  /\ Forall (fun m => sessionId (snd m) = sid
                      /\ step (snd m) = stepName
                      /\ data (snd m) = completionData)
            (snd (broadcastProgress isOpen sid stepName progressValue
                                    completionData videoSessions)).
Proof.
  intros Hreach. unfold broadcastProgress, subscribers.
  destruct (videoSessions !! sid) as [clients|] eqn:E; simpl.
  - rewrite map_map. simpl. rewrite map_id.
    split; [|split].
    + apply NoDup_filter. by apply (Reachable_noDuplicates _ Hreach _ _ E).
    + intros ws. rewrite list_elem_of_filter. tauto.
    + apply Forall_map, Forall_forall. by intros ws _.
  - split; [apply NoDup_nil_2|]. split; [|constructor].
    intros ws. split; [by intros ?%not_elem_of_nil|].
    by intros [?%not_elem_of_nil _].
Qed.

Lemma broadcast_reaches_session_only_witness :
  NoDup (map fst (snd (broadcastProgress (fun ws => Nat.eqb ws 1) "a"
                         "creating-video" 30 None
                         (onMessage 2%nat (subscribeMessage "b")
                            (onMessage 1%nat (subscribeMessage "a") ∅)))))
  /\ (forall ws,
        ws ∈ map fst (snd (broadcastProgress (fun ws => Nat.eqb ws 1) "a"
                             "creating-video" 30 None
                             (onMessage 2%nat (subscribeMessage "b")
                                (onMessage 1%nat (subscribeMessage "a") ∅))))
        <-> ws ∈ subscribers "a"
                  (onMessage 2%nat (subscribeMessage "b")
                     (onMessage 1%nat (subscribeMessage "a") ∅))
            /\ Nat.eqb ws 1 = true)
  /\ Forall (fun m => sessionId (snd m) = "a"%string
                      /\ step (snd m) = "creating-video"%string
                      /\ data (snd m) = None)
            (snd (broadcastProgress (fun ws => Nat.eqb ws 1) "a"
                    "creating-video" 30 None
                    (onMessage 2%nat (subscribeMessage "b")
                       (onMessage 1%nat (subscribeMessage "a") ∅)))).
Proof.
  apply (broadcast_reaches_session_only (fun ws => Nat.eqb ws 1) "a"
           "creating-video" 30 None).
  apply reach_message, reach_message, reach_empty.
Defined.



(** X3.  When a connection closes, its socket is removed from every
    session and the other sockets keep their registrations in order; no
    later broadcast reaches the closed socket. *)
Theorem close_removes_socket_everywhere (ws : Socket)
        (videoSessions : gmap string (list Socket)) :
  (forall sid,
     subscribers sid (onClose ws videoSessions)
     = setDelete ws (subscribers sid videoSessions))
  /\ (forall isOpen sid stepName p d,
        ws ∉ map fst (snd (broadcastProgress isOpen sid stepName p d
                             (onClose ws videoSessions)))).
Proof.
  assert (Hsub : forall sid,
             subscribers sid (onClose ws videoSessions)
             = setDelete ws (subscribers sid videoSessions)).
  { intros sid. unfold subscribers, onClose. rewrite lookup_omap.
    destruct (videoSessions !! sid) as [l|]; simpl; [|done].
    case_decide as Hlen; [|done]. simpl.
    by apply nil_length_inv in Hlen. }
  split; [exact Hsub|].
  intros isOpen sid stepName p d Hin.
  assert (Hin' : ws ∈ subscribers sid (onClose ws videoSessions)).
  { revert Hin. unfold broadcastProgress, subscribers.
    destruct (onClose ws videoSessions !! sid) as [l|]; simpl.
    - rewrite map_map. simpl. rewrite map_id, list_elem_of_filter. tauto.
    - by intros ?%not_elem_of_nil. }
  rewrite Hsub in Hin'. apply elem_of_setDelete in Hin'. tauto.
Qed.

(** X4.  A subscription adds the socket to the session's set (once,
    behind the sockets already there), leaves the other sessions alone,
    and repeating it changes nothing. *)
Theorem subscribe_is_set_insertion (ws : Socket) (sid : string)
        (videoSessions : gmap string (list Socket)) :
  sid <> ""%string ->
  subscribers sid (onMessage ws (subscribeMessage sid) videoSessions)
  = setAdd ws (subscribers sid videoSessions)
  /\ (forall other, other <> sid ->
        onMessage ws (subscribeMessage sid) videoSessions !! other
        = videoSessions !! other)
  /\ onMessage ws (subscribeMessage sid)
       (onMessage ws (subscribeMessage sid) videoSessions)
     = onMessage ws (subscribeMessage sid) videoSessions.
Proof.
  intros Hsid. apply String.eqb_neq in Hsid.
  assert (Hlook : forall reg,
             onMessage ws (subscribeMessage sid) reg !! sid
             = Some (setAdd ws (default [] (reg !! sid)))).
  { intros reg. unfold onMessage, subscribeMessage. simpl. rewrite Hsid.
    simpl. rewrite lookup_alter, decide_True by done.
    destruct (reg !! sid) as [l|] eqn:E; [by rewrite E|].
    by rewrite lookup_insert_eq. }
  assert (Hother : forall reg other, other <> sid ->
             onMessage ws (subscribeMessage sid) reg !! other
             = reg !! other).
  { intros reg other Hne. unfold onMessage, subscribeMessage. simpl.
    rewrite Hsid. simpl. rewrite lookup_alter_ne by done.
    destruct (reg !! sid); [done|]. by rewrite lookup_insert_ne. }
  split; [|split].
  - unfold subscribers at 1. by rewrite Hlook.
  - apply Hother.
  - apply map_eq. intros k. destruct (decide (k = sid)) as [->|Hne].
    + rewrite !Hlook. simpl. f_equal. unfold setAdd at 1.
      rewrite decide_True; [done|]. apply elem_of_setAdd. by left.
    + by rewrite !Hother.
Qed.

Lemma subscribe_is_set_insertion_witness :
  subscribers "a"
    (onMessage 2%nat (subscribeMessage "a")
       (onMessage 1%nat (subscribeMessage "a") ∅))
  = setAdd 2%nat (subscribers "a" (onMessage 1%nat (subscribeMessage "a") ∅)).
Proof.
  apply (subscribe_is_set_insertion 2%nat "a"
           (onMessage 1%nat (subscribeMessage "a") ∅)).
  discriminate.
Defined.

(** X5.  Subscribing and then disconnecting leaves no trace: the registry
    is the one obtained by the disconnection alone, so a session whose
    only subscriber left has no record. *)
Theorem subscribe_then_close (ws : Socket) (sid : string)
        (videoSessions : gmap string (list Socket)) :
  onClose ws (onMessage ws (subscribeMessage sid) videoSessions)
  = onClose ws videoSessions.
Proof.
  unfold onMessage, subscribeMessage. simpl.
  destruct (negb (String.eqb sid "")) eqn:Hsid; [|done].
  apply map_eq. intros k. unfold onClose. rewrite !lookup_omap.
  destruct (decide (k = sid)) as [->|Hne].
  - rewrite lookup_alter, decide_True by done.
    destruct (videoSessions !! sid) as [l|] eqn:E.
    + rewrite E. simpl. by rewrite setDelete_setAdd.
    + rewrite lookup_insert_eq. simpl.
      rewrite setDelete_setAdd. by simpl.
  - rewrite lookup_alter_ne by done.
    destruct (videoSessions !! sid); [done|].
    by rewrite lookup_insert_ne.
Qed.

End BroadcasterFacts.

(** ** Further properties of the pipeline stages *)

Module PipelineFacts.

Import JsString JsNumber JsNumberFacts Broadcaster Pipeline PipelineFrames.
Import PipelineClaims CompositorFacts.
Local Open Scope Q_scope.

Lemma handlerProgress_frame (o : Outcomes) (sid : string) :
  frameCallback (handlerProgress o sid).
Proof.
  intros stepName p st. unfold handlerProgress, publish.
  destruct (broadcastProgress _ _ _ _ _ _) as [reg sent].
  by eexists _, _.
Qed.

Lemma frameCallback_quiet (cb : ProgressCallback) :
  frameCallback cb -> quietCallback cb.
Proof.
  intros Hcb s p st. destruct (Hcb s p st) as (st' & out & H & Hf & _).
  by exists st', out.
Qed.

(** *** Progress values of the encoder *)





(** *** Computations that leave the audio file alone *)














(** *** Effects of the stages on the files *)

Ltac run_frame Hcb :=
  match goal with
  | |- context [?cb ?s ?p ?x] =>
      lazymatch type of Hcb with
      | frameCallback cb =>
          let st := fresh "st" in
          let out := fresh "out" in
          let Hf := fresh "Hfiles" in
          let Ha := fresh "Haudio" in
          let Hi := fresh "Himages" in
          let Hk := fresh "Hkilled" in
          destruct (Hcb s p x) as (st & out & -> & Hf & Ha & Hi & Hk);
          cbv beta iota
      end
  end.

Ltac chase_state :=
  repeat match goal with
         | H : files ?a = _ |- context [files ?a] => rewrite H
         | H : audioPath ?a = _ |- context [audioPath ?a] => rewrite H
         | H : imagePaths ?a = _ |- context [imagePaths ?a] => rewrite H
         end.

Ltac close_stage :=
  eexists _, _; split; [reflexivity|];
  cbn [files audioPath imagePaths setFiles]; chase_state; done.

Section Stages.

Variable o : Outcomes.
Variable cb : ProgressCallback.
Hypothesis cb_frame : frameCallback cb.

Lemma generateAudioFile_ok (st : State) :
  tts o = TtsOk ->
  exists st' out,
    generateAudioFile o cb st = (Return TmpAudio, st', out)
    /\ files st' = files st ∪ {[TmpAudio]}
    /\ audioPath st' = audioPath st
    /\ imagePaths st' = imagePaths st.
Proof.
  intros Htts. unfold generateAudioFile, mbind, M_bind. rewrite Htts.
  do 3 run_frame cb_frame. unfold writeFileSync, modify. cbv beta iota.
  run_frame cb_frame. unfold mret, M_ret.
  eexists _, _. split; [reflexivity|].
  cbn [files audioPath imagePaths setFiles] in *. chase_state.
  cbn [files audioPath imagePaths setFiles]. chase_state. done.
Qed.

Lemma generateAudioFile_fails (st : State) :
  tts o <> TtsOk ->
  exists e st' out,
    generateAudioFile o cb st = (Throw e, st', out)
    /\ files st' = files st
    /\ audioPath st' = audioPath st
    /\ imagePaths st' = imagePaths st.
Proof.
  intros Htts. unfold generateAudioFile, mbind, M_bind, throw.
  destruct (tts o) as [s| |s|]; [| | |done];
    repeat run_frame cb_frame;
    eexists _, _, _; (split; [reflexivity|]); chase_state; done.
Qed.

Lemma generateImagesFrom_effect (total : nat) (remaining : list ImagePrompt)
      (i : nat) (paths : list Path) (st : State) :
  exists r st' out,
    generateImagesFrom o cb total i remaining paths st = (r, st', out)
    /\ files st'
       = files st
         ∪ pathSet (map (fun j => TmpImage (j + 1))
                        (seq i (servedImages o i (length remaining))))
    /\ audioPath st' = audioPath st
    /\ imagePaths st' = imagePaths st
    /\ (servedImages o i (length remaining) = length remaining ->
        r = Return (paths ++ map (fun j => TmpImage (j + 1))
                                 (seq i (length remaining))))
    /\ ((servedImages o i (length remaining) < length remaining)%nat ->
        exists e, r = Throw e).
Proof.
  revert i paths st. induction remaining as [|prompt rest IH];
    intros i paths st; cbn [generateImagesFrom length servedImages].
  - unfold mbind, M_bind, mret, M_ret. run_frame cb_frame.
    eexists _, _, _. split; [reflexivity|].
    cbn [seq map]. unfold pathSet. rewrite list_to_set_nil.
    split; [chase_state; by rewrite union_empty_r_L|].
    split; [by chase_state|]. split; [by chase_state|].
    split; [by rewrite app_nil_r | lia].
  - unfold mbind, M_bind. run_frame cb_frame.
    destruct (image o i) as [s| |s|] eqn:Himg.
    1-3: unfold throw; repeat run_frame cb_frame;
      eexists _, _, _; (split; [reflexivity|]);
      cbn [seq map]; unfold pathSet; rewrite list_to_set_nil;
      (split; [chase_state; by rewrite union_empty_r_L|]);
      (split; [by chase_state|]); (split; [by chase_state|]);
      (split; [lia | intros _; by eexists]).
    run_frame cb_frame. unfold writeFileSync, modify. cbv beta iota.
    rewrite Nat.add_1_r.
    destruct (IH (S i) (paths ++ [TmpImage (S i)])
                 (setFiles (fun fs => fs ∪ {[TmpImage (S i)]}) st1))
      as (r & st' & out' & -> & Hf & Ha & Hi & Hok & Hfail).
    eexists _, _, _. split; [reflexivity|].
    split; [|split; [|split; [|split]]].
    + rewrite Hf. cbn [files setFiles seq map]. chase_state.
      unfold pathSet. rewrite list_to_set_cons, Nat.add_1_r.
      by rewrite (assoc_L (∪)).
    + rewrite Ha. cbn [audioPath setFiles]. by chase_state.
    + rewrite Hi. cbn [imagePaths setFiles]. by chase_state.
    + intros Hall. rewrite Hok by lia. cbn [seq map].
      by rewrite <- app_assoc, Nat.add_1_r.
    + intros Hlt. apply Hfail. lia.
Qed.

Lemma forEach_unlink_effect (paths : list Path) (st : State) :
  exists st',
    forEach unlinkIfExists paths st = (Return tt, st', [])
    /\ files st' = files st ∖ pathSet paths
    /\ audioPath st' = audioPath st
    /\ imagePaths st' = imagePaths st.
Proof.
  revert st; induction paths as [|p paths IH]; intros st; cbn [forEach].
  - exists st. split; [done|]. unfold pathSet.
    rewrite list_to_set_nil. split; [|done]. by rewrite difference_empty_L.
  - destruct (IH (setFiles (fun fs => fs ∖ {[p]}) st))
      as (st' & Hrest & Hf & Ha & Hi).
    exists st'. unfold mbind, M_bind.
    change (unlinkIfExists p st)
      with (Return tt, setFiles (fun fs => fs ∖ {[p]}) st,
            @nil Publication).
    cbv beta iota. rewrite Hrest. split; [done|].
    split; [|done]. rewrite Hf. cbn [files setFiles]. unfold pathSet.
    rewrite list_to_set_cons. apply set_eq. intros x.
    rewrite !elem_of_difference, elem_of_union. tauto.
Qed.

Lemma generateVideoFinally_effect (st : State) :
  exists st' out,
    generateVideoFinally cb st = (Return tt, st', out)
    /\ files st' = files st ∖ recordedFiles st.
Proof.
  unfold generateVideoFinally, mbind, M_bind, gets. run_frame cb_frame.
  destruct (forEach_unlink_effect (imagePaths st0) st0)
    as (st1 & -> & Hf & Ha & Hi).
  unfold recordedFiles. rewrite <- Haudio, <- Himages, <- Ha.
  destruct (audioPath st1) as [p|]; unfold unlinkIfExists, modify;
    eexists _, _; (split; [reflexivity|]); cbn [files setFiles];
    rewrite Hf, Hfiles.
  - apply set_eq; intros x.
    rewrite !elem_of_difference, elem_of_union. tauto.
  - by rewrite union_empty_r_L.
Qed.

Lemma reportEncodeProgress_frame (target : Q) (times : list Q)
      (st : State) :
  exists st' out,
    reportEncodeProgress cb target times st = (Return tt, st', out)
    /\ files st' = files st
    /\ audioPath st' = audioPath st
    /\ imagePaths st' = imagePaths st
    /\ ffmpegKilled st' = ffmpegKilled st.
Proof.
  revert st; induction times as [|t times IH]; intros st;
    cbn [reportEncodeProgress].
  - by eexists _, _.
  - unfold mbind, M_bind. run_frame cb_frame.
    destruct (IH st0) as (st2 & out2 & -> & Hf2 & Ha2 & Hi2 & Hk2).
    eexists _, _. split; [reflexivity|]. repeat split; congruence.
Qed.

Lemma createVideoWithFFmpeg_ok (images : list Path) (audio : Path)
      (timings : list Q) (audioSeconds videoSeconds : Q) (st : State) :
  audioProbe o = ProbeOk audioSeconds ->
  length timings = length images ->
  ffmpeg o = FfmpegClose 0 ->
  ffmpegWroteOutput o = true ->
  videoProbe o = ProbeOk videoSeconds ->
  exists st' out,
    createVideoWithFFmpeg o images audio timings cb st
    = (Return (TmpVideo, videoSeconds), st', out)
    /\ files st' = files st ∪ {[TmpVideo]}
    /\ audioPath st' = audioPath st
    /\ imagePaths st' = imagePaths st.
Proof.
  intros Haud Hlen Hff Hwrote Hvid.
  unfold createVideoWithFFmpeg, mbind, M_bind.
  do 2 run_frame cb_frame.
  rewrite Haud. cbn [getMediaDuration]. unfold mret, M_ret.
  cbv beta iota. run_frame cb_frame.
  rewrite imageInputDurations_take
    by (rewrite adjustedTimings_length; lia).
  run_frame cb_frame. rewrite Hff, Hwrote. rewrite decide_True by done.
  unfold writeFileSync, modify. cbv beta iota.
  match goal with
  | |- context [reportEncodeProgress cb ?t ?ts ?x] =>
      destruct (reportEncodeProgress_frame t ts x)
        as (st5 & out5 & -> & Hf5 & Ha5 & Hi5 & _)
  end.
  unfold tryCatch, mbind, M_bind. run_frame cb_frame.
  rewrite Hvid. cbn [getMediaDuration]. unfold mret, M_ret.
  cbv beta iota. run_frame cb_frame.
  eexists _, _. split; [reflexivity|].
  cbn [files audioPath imagePaths setFiles] in *. chase_state.
  cbn [files audioPath imagePaths setFiles]. chase_state. done.
Qed.

(** With fewer timings than images the arguments of the encoder cannot
    be built. *)
Lemma createVideoWithFFmpeg_short (images : list Path) (audio : Path)
      (timings : list Q) (audioSeconds : Q) (st : State) :
  audioProbe o = ProbeOk audioSeconds ->
  (length timings < length images)%nat ->
  exists e st' out,
    createVideoWithFFmpeg o images audio timings cb st = (Throw e, st', out)
    /\ files st' = files st
    /\ ffmpegKilled st' = ffmpegKilled st.
Proof.
  intros Haud Hlen. unfold createVideoWithFFmpeg, mbind, M_bind.
  do 2 run_frame cb_frame.
  rewrite Haud. cbn [getMediaDuration]. unfold mret, M_ret.
  cbv beta iota. run_frame cb_frame.
  rewrite imageInputDurations_short
    by (rewrite adjustedTimings_length; lia).
  unfold throw. eexists _, _, _. split; [reflexivity|].
  split; congruence.
Qed.

(** [generateVideo] ends with the outcome of its [try] block and with
    the recorded files removed. *)
Lemma generateVideo_outcome (imagePrompts : list ImagePrompt) (st : State)
      (r : Result VideoGenerationResult) (st1 : State)
      (out1 : list Publication) :
  generateVideoTry o imagePrompts cb
    {| files := files st; videoSessions := videoSessions st;
       audioPath := None; imagePaths := [];
       ffmpegKilled := ffmpegKilled st |}
  = (r, st1, out1) ->
  exists st' out,
    generateVideo o imagePrompts cb st = (r, st', out)
    /\ files st' = files st1 ∖ recordedFiles st1.
Proof.
  intros Htry. unfold generateVideo. unfold mbind at 1.
  unfold M_bind, modify, tryFinally, tryCatch. rewrite Htry.
  destruct r as [v|e].
  - destruct (generateVideoFinally_effect st1) as (st' & out & -> & Hf).
    by eexists _, _.
  - unfold generateVideoCatch, mbind, M_bind, throw.
    run_frame cb_frame.
    destruct (generateVideoFinally_effect st0) as (st' & out' & -> & Hf).
    eexists _, _. split; [reflexivity|].
    rewrite Hf. unfold recordedFiles. by rewrite Hfiles, Haudio, Himages.
Qed.





Lemma servedImages_all (i n : nat) :
  (forall j, image o j = ImageOk) -> servedImages o i n = n.
Proof.
  intros Hall. revert i; induction n as [|n IH]; intros i; [done|].
  cbn [servedImages]. by rewrite Hall, IH.
Qed.

Lemma imageFiles_length (n : nat) : length (imageFiles n) = n.
Proof. unfold imageFiles. by rewrite length_map, length_seq. Qed.

Lemma generateVideoTry_ok (imagePrompts : list ImagePrompt)
      (videoSeconds : Q) (st : State) :
  everythingSucceeds o videoSeconds ->
  exists st1 out1,
    generateVideoTry o imagePrompts cb st
    = (Return {| videoPath := TmpVideo;
                 duration := videoSeconds;
                 optimizedTimings :=
                   Timing.calculateOptimalTimings
                     (map (fun prompt => trim (voiceover prompt))
                          imagePrompts) |},
       st1, out1)
    /\ files st1
       = files st ∪ {[TmpAudio]}
         ∪ pathSet (imageFiles (length imagePrompts)) ∪ {[TmpVideo]}
    /\ audioPath st1 = Some TmpAudio
    /\ imagePaths st1 = imageFiles (length imagePrompts).
Proof.
  intros (Htts & Himg & [a Haud] & Hff & Hwrote & Hvid & _).
  unfold generateVideoTry, mbind, M_bind. do 2 run_frame cb_frame.
  destruct (generateAudioFile_ok st1 Htts)
    as (st2 & out2 & -> & Hf2 & Ha2 & Hi2).
  unfold setAudioPath, setImagePaths, modify. cbv beta iota.
  unfold generateAllImages.
  match goal with
  | |- context [generateImagesFrom o cb ?t ?i ?rem ?ps ?x] =>
      destruct (generateImagesFrom_effect t rem i ps x)
        as (r3 & st3 & out3 & -> & Hf3 & Ha3 & Hi3 & Hok3 & _)
  end.
  rewrite servedImages_all in Hok3, Hf3 by done.
  rewrite Hok3 by done. cbn [app]. cbv beta iota.
  fold (imageFiles (length imagePrompts)) in *.
  match goal with
  | |- context [createVideoWithFFmpeg o ?imgs ?au ?ts cb ?x] =>
      destruct (createVideoWithFFmpeg_ok imgs au ts a videoSeconds x
                  Haud) as (st4 & out4 & -> & Hf4 & Ha4 & Hi4);
        [by rewrite TimingFacts.calculateOptimalTimings_length,
                    length_map, imageFiles_length
        | done | done | done |]
  end.
  run_frame cb_frame. unfold mret, M_ret.
  eexists _, _. split; [reflexivity|].
  cbn [files audioPath imagePaths] in *.
  rewrite Hfiles1, Hf4, Haudio1, Ha4, Himages1, Hi4.
  cbn [files audioPath imagePaths]. rewrite Hf3. cbn [files].
  by rewrite Hf2, Hfiles0, Hfiles.
Qed.

End Stages.

(** *** Whole runs *)

Lemma publish_eq (o : Outcomes) (sid stepName : string) (p : Q)
      (d : option CompletionData) (st : State) :
  publish o sid stepName p d st
  = (Return tt,
     {| files := files st;
        videoSessions :=
          fst (broadcastProgress (socketOpen o) sid stepName p d
                                 (videoSessions st));
        audioPath := audioPath st;
        imagePaths := imagePaths st;
        ffmpegKilled := ffmpegKilled st |},
     [{| pubSessionId := sid; pubStep := stepName; pubProgress := p;
         pubData := d;
         pubSent := snd (broadcastProgress (socketOpen o) sid stepName p d
                                           (videoSessions st)) |}]).
Proof.
  unfold publish. by destruct (broadcastProgress _ _ _ _ _ _) as [reg sent].
Qed.

Lemma prefix_append (needle s : string) :
  String.prefix needle (needle +:+ s) = true.
Proof.
  induction needle as [|c needle IH]; simpl; [by destruct s|].
  by destruct (ascii_dec c c).
Qed.

Lemma includes_append (needle s : string) :
  includes (needle +:+ s) needle = true.
Proof.
  assert (Hunfold : forall t,
             includes t needle
             = String.prefix needle t
               || match t with
                  | EmptyString => false
                  | String _ rest => includes rest needle
                  end) by (by intros []).
  by rewrite Hunfold, prefix_append.
Qed.

(** X7.  The narration stage is all or nothing: when the service call,
    its answer and the download succeed it returns the path of the one
    audio file it has written; on every failure it throws and has written
    no file. *)
Theorem audio_stage_all_or_nothing (o : Outcomes) (sid : string)
        (st : State) :
  (tts o = TtsOk ->
   exists st' out,
     generateAudioFile o (handlerProgress o sid) st
     = (Return TmpAudio, st', out)
     /\ files st' = files st ∪ {[TmpAudio]})
  /\ (tts o <> TtsOk ->
      exists e st' out,
        generateAudioFile o (handlerProgress o sid) st = (Throw e, st', out)
        /\ files st' = files st).
Proof.
  split; intros Htts.
  - destruct (generateAudioFile_ok o _ (handlerProgress_frame o sid) st Htts)
      as (st' & out & H & Hf & _).
    by exists st', out.
  - destruct (generateAudioFile_fails o _ (handlerProgress_frame o sid)
                st Htts) as (e & st' & out & H & Hf & _).
    by exists e, st', out.
Qed.

Lemma audio_stage_all_or_nothing_witness :
  (exists st' out,
     generateAudioFile (allSucceed 30 30) (handlerProgress (allSucceed 30 30)
                                                           "run-1")
                       (initialState ∅ oneSubscriber)
     = (Return TmpAudio, st', out)
     /\ files st' = files (initialState ∅ oneSubscriber) ∪ {[TmpAudio]})
  /\ (exists e st' out,
        generateAudioFile
          {| tts := TtsNoAudioUrl; image := fun _ => ImageOk;
             audioProbe := ProbeOk 30; ffmpeg := FfmpegClose 0;
             ffmpegWroteOutput := true; ffmpegStderr := "";
             encodeTimes := []; videoProbe := ProbeOk 30;
             renameError := None; socketOpen := fun _ => true |}
          (handlerProgress (allSucceed 30 30) "run-1")
          (initialState ∅ oneSubscriber)
        = (Throw e, st', out)
        /\ files st' = files (initialState ∅ oneSubscriber)).
Proof.
  split.
  - apply (audio_stage_all_or_nothing (allSucceed 30 30) "run-1").
    reflexivity.
  - destruct (generateAudioFile_fails
                {| tts := TtsNoAudioUrl; image := fun _ => ImageOk;
                   audioProbe := ProbeOk 30; ffmpeg := FfmpegClose 0;
                   ffmpegWroteOutput := true; ffmpegStderr := "";
                   encodeTimes := []; videoProbe := ProbeOk 30;
                   renameError := None; socketOpen := fun _ => true |}
                _ (handlerProgress_frame (allSucceed 30 30) "run-1")
                (initialState ∅ oneSubscriber))
      as (e & st' & out & H & Hf & _); [discriminate|].
    by exists e, st', out.
Defined.

(** X8.  Images are requested one at a time, in order, and the stage
    stops at the first request that fails: the files written are exactly
    those of the requests served before it; when none fails the stage
    returns the paths image 1 to image n in order, otherwise it throws. *)
Theorem image_stage_stops_at_first_failure (o : Outcomes) (sid : string)
        (imagePrompts : list ImagePrompt) (st : State) :
  exists r st' out,
    generateAllImages o imagePrompts (handlerProgress o sid) st
    = (r, st', out)
    /\ files st'
       = files st
         ∪ pathSet (imageFiles (servedImages o 0 (length imagePrompts)))
    /\ (servedImages o 0 (length imagePrompts) = length imagePrompts ->
        r = Return (imageFiles (length imagePrompts)))
    /\ ((servedImages o 0 (length imagePrompts) < length imagePrompts)%nat ->
        exists e, r = Throw e).
Proof.
  unfold generateAllImages.
  destruct (generateImagesFrom_effect o _ (handlerProgress_frame o sid)
              (length imagePrompts) imagePrompts 0 [] st)
    as (r & st' & out & H & Hf & _ & _ & Hok & Hfail).
  exists r, st', out. split; [exact H|]. split; [exact Hf|].
  split; [exact Hok | exact Hfail].
Qed.


(** What the handler does with the outcome of [generateVideo]. *)
Lemma runVideoGeneration_cases (o : Outcomes) (sid : string)
      (imagePrompts : list ImagePrompt) (st : State)
      (r : Result VideoGenerationResult) (st' : State)
      (out : list Publication) :
  generateVideo o imagePrompts (handlerProgress o sid) st = (r, st', out) ->
  (forall e, r = Throw e ->
     files (finalState (runVideoGeneration o sid imagePrompts st))
     = files st'
     /\ lastData (runVideoGeneration o sid imagePrompts st)
        = Some (classifyError e))
  /\ (forall v, r = Return v ->
        renameError o = None -> videoPath v ∈ files st' ->
        files (finalState (runVideoGeneration o sid imagePrompts st))
        = (files st' ∖ {[videoPath v]}) ∪ {[PublicVideo]}
        /\ lastData (runVideoGeneration o sid imagePrompts st)
           = Some (VideoReady (duration v) (optimizedTimings v)))
  /\ (forall v, r = Return v ->
        renameError o <> None \/ videoPath v ∉ files st' ->
        files (finalState (runVideoGeneration o sid imagePrompts st))
        = files st').
Proof.
  intros Hgen. unfold runVideoGeneration, tryCatch, finalState, lastData,
    publications, mbind, M_bind.
  rewrite Hgen. split; [|split].
  - intros e ->. rewrite publish_eq. simpl. by rewrite last_snoc.
  - intros v -> Hren Hin. unfold renameSync. rewrite Hren.
    unfold mbind, M_bind, gets, modify.
    rewrite bool_decide_eq_true_2 by done. rewrite publish_eq.
    simpl. by rewrite last_snoc.
  - intros v -> Hcase. unfold renameSync.
    destruct (renameError o) as [m|] eqn:Hren.
    + unfold throw. by rewrite publish_eq.
    + destruct Hcase as [?|Hnot]; [done|].
      unfold mbind, M_bind, gets, throw.
      rewrite bool_decide_eq_false_2 by done. by rewrite publish_eq.
Qed.




Lemma elem_of_imageFiles (p : Path) (n : nat) :
  p ∈ pathSet (imageFiles n) -> isTemporary p = true.
Proof.
  unfold pathSet, imageFiles. rewrite elem_of_list_to_set.
  intros Hin. apply list_elem_of_fmap in Hin as (i & -> & _). done.
Qed.

(** X11.  When every external operation succeeds, a run that started
    without temporary files ends with the files it found plus the public
    video, and its last event carries the duration probed from the
    encoder output and the timings of the allocator. *)
Theorem successful_run_leaves_public_video (o : Outcomes) (sid : string)
        (imagePrompts : list ImagePrompt) (videoSeconds : Q) (st : State) :
  everythingSucceeds o videoSeconds ->
  (forall p, p ∈ files st -> isTemporary p = false) ->
  files (finalState (runVideoGeneration o sid imagePrompts st))
  = files st ∪ {[PublicVideo]}
  /\ lastData (runVideoGeneration o sid imagePrompts st)
     = Some (VideoReady videoSeconds
               (Timing.calculateOptimalTimings
                  (map (fun prompt => trim (voiceover prompt))
                       imagePrompts))).
Proof.
  intros Hok Hclean.
  destruct (generateVideoTry_ok o _ (handlerProgress_frame o sid)
              imagePrompts videoSeconds
              {| files := files st; videoSessions := videoSessions st;
                 audioPath := None; imagePaths := [];
                 ffmpegKilled := ffmpegKilled st |} Hok)
    as (st1 & out1 & Etry & Hf1 & Ha1 & Hi1).
  destruct (generateVideo_outcome o _ (handlerProgress_frame o sid)
              imagePrompts st _ st1 out1 Etry) as (st' & out & Egen & Hf).
  destruct (runVideoGeneration_cases o sid imagePrompts st _ st' out Egen)
    as (_ & Hmove & _).
  assert (Hfiles' : files st' = files st ∪ {[TmpVideo]}).
  { rewrite Hf, Hf1. unfold recordedFiles. rewrite Ha1, Hi1.
    cbn [files]. apply set_eq. intros x.
    rewrite elem_of_difference, !elem_of_union, !elem_of_singleton.
    split.
    - intros [[[[?|?]|?]|?] Hnot]; try tauto; exfalso; apply Hnot; tauto.
    - intros [Hx| ->].
      + split; [tauto|]. intros [Himg| ->].
        * apply elem_of_imageFiles in Himg.
          rewrite (Hclean x Hx) in Himg. discriminate.
        * by specialize (Hclean _ Hx).
      + split; [tauto|]. intros [Himg|?]; [|discriminate].
        unfold pathSet, imageFiles in Himg.
        apply elem_of_list_to_set, list_elem_of_fmap in Himg
          as (i & ? & _). discriminate. }
  destruct Hok as (_ & _ & _ & _ & _ & _ & Hren).
  destruct (Hmove _ eq_refl Hren) as [Hfinal Hlast].
  { cbn [videoPath]. rewrite Hfiles'.
    apply elem_of_union_r, elem_of_singleton. reflexivity. }
  split; [|exact Hlast].
  rewrite Hfinal, Hfiles'. cbn [videoPath]. apply set_eq. intros x.
  rewrite !elem_of_union, elem_of_difference, !elem_of_union,
    !elem_of_singleton.
  split.
  - intros [[[?|?] ?]|?]; tauto.
  - intros [Hx|?]; [|tauto]. left. split; [tauto|].
    intros ->. by specialize (Hclean _ Hx).
Qed.

Lemma successful_run_leaves_public_video_witness :
  files (finalState (runWith (allSucceed 30 31)))
  = files (initialState ∅ oneSubscriber) ∪ {[PublicVideo]}.
Proof.
  apply (successful_run_leaves_public_video (allSucceed 30 31) "run-1"
           twoPrompts 31 (initialState ∅ oneSubscriber)).
  - unfold everythingSucceeds. simpl.
    repeat split; try reflexivity. by exists 30.
  - intros p Hp. by apply not_elem_of_empty in Hp.
Defined.

Lemma classifyError_tts (statusText : string) :
  classifyError ("TTS generation failed: " +:+ statusText)
  = Failure "TTS_SERVICE_ERROR"
            "Failed to generate audio for video"
            "Please check your text-to-speech service configuration".
Proof.
  unfold classifyError.
  change ("TTS generation failed: " +:+ statusText)
    with ("TTS generation failed" +:+ (": " +:+ statusText)).
  by rewrite includes_append.
Qed.

(** X12.  When the narration service answers with an error status, the
    run publishes no image or video step, touches no file, and reports the
    error code TTS_SERVICE_ERROR. *)
Theorem narration_failure_skips_images (o : Outcomes) (sid : string)
        (imagePrompts : list ImagePrompt) (st : State)
        (statusText : string) :
  tts o = TtsHttpError statusText ->
  publishedSteps (runVideoGeneration o sid imagePrompts st)
  = ["initializing"; "calculating-timings"; "generating-audio";
     "error"; "finalizing"; "error"]
  /\ files (finalState (runVideoGeneration o sid imagePrompts st))
     = files st
  /\ (errorCode <$> lastData (runVideoGeneration o sid imagePrompts st))
     = Some "TTS_SERVICE_ERROR"%string.
Proof.
  intros Htts.
  assert (Hrun : exists stF p1 p2 p3 p4 p5 p6,
             runVideoGeneration o sid imagePrompts st
             = (Return tt, stF, [p1; p2; p3; p4; p5; p6])
             /\ map pubStep [p1; p2; p3; p4; p5; p6]
                = ["initializing"; "calculating-timings";
                   "generating-audio"; "error"; "finalizing"; "error"]
             /\ files stF = files st
             /\ pubData p6
                = Some (classifyError ("TTS generation failed: "
                                       +:+ statusText))).
  { unfold runVideoGeneration, generateVideo, tryFinally, tryCatch,
      generateVideoTry, generateVideoCatch, generateVideoFinally,
      generateAudioFile, handlerProgress, mbind, M_bind, modify, gets, throw.
    rewrite Htts.
    repeat (rewrite publish_eq; cbv beta iota; cbn [imagePaths audioPath]).
    cbn [forEach]. unfold mret, M_ret. cbv beta iota.
    cbn [imagePaths audioPath].
    repeat (rewrite publish_eq; cbv beta iota; cbn [imagePaths audioPath]).
    cbn [app]. eexists _, _, _, _, _, _, _.
    split; [reflexivity|]. split; [reflexivity|]. split; reflexivity. }
  destruct Hrun as (stF & p1 & p2 & p3 & p4 & p5 & p6 & -> & Hsteps & Hf
                    & Hdata).
  split; [exact Hsteps|]. split; [exact Hf|].
  unfold lastData, publications. cbn [snd last]. rewrite Hdata.
  by rewrite classifyError_tts.
Qed.

Lemma narration_failure_skips_images_witness :
  files (finalState
           (runVideoGeneration
              {| tts := TtsHttpError "Service Unavailable";
                 image := fun _ => ImageOk;
                 audioProbe := ProbeOk 30; ffmpeg := FfmpegClose 0;
                 ffmpegWroteOutput := true; ffmpegStderr := "";
                 encodeTimes := []; videoProbe := ProbeOk 30;
                 renameError := None; socketOpen := fun _ => true |}
              "run-1" twoPrompts (initialState ∅ oneSubscriber)))
  = files (initialState ∅ oneSubscriber).
Proof.
  apply (narration_failure_skips_images
           {| tts := TtsHttpError "Service Unavailable";
              image := fun _ => ImageOk;
              audioProbe := ProbeOk 30; ffmpeg := FfmpegClose 0;
              ffmpegWroteOutput := true; ffmpegStderr := "";
              encodeTimes := []; videoProbe := ProbeOk 30;
              renameError := None; socketOpen := fun _ => true |}
           "run-1" twoPrompts (initialState ∅ oneSubscriber)
           "Service Unavailable").
  reflexivity.
Defined.

End PipelineFacts.

(** * JavaScript containers: the facts the storage proofs use *)

Module JsMapFacts.

Import JsMap.

Section Facts.

Context {V : Type}.

Implicit Types (m : t V) (k : string) (v : V).

Lemma get_set_eq k v m : get k (set k v m) = Some v.
Proof.
  induction m as [|[k' v'] m IH]; simpl.
  - by rewrite String.eqb_refl.
  - destruct (String.eqb k' k) eqn:E; simpl.
    + by rewrite String.eqb_refl.
    + by rewrite E.
Qed.

Lemma get_set_ne k k' v m : k <> k' -> get k' (set k v m) = get k' m.
Proof.
  intros Hne. induction m as [|[k0 v0] m IH]; simpl.
  - destruct (String.eqb k k') eqn:E; [|done].
    by apply String.eqb_eq in E.
  - destruct (String.eqb k0 k) eqn:E; simpl.
    + apply String.eqb_eq in E as ->.
      destruct (String.eqb k k') eqn:E'; [|done].
      by apply String.eqb_eq in E'.
    + by rewrite IH.
Qed.

Lemma get_Some_elem k v m : get k m = Some v -> (k, v) ∈ m.
Proof.
  induction m as [|[k' v'] m IH]; simpl; [done|].
  destruct (String.eqb k' k) eqn:E.
  - apply String.eqb_eq in E as ->. intros [= ->]. left.
  - intros H. right. by apply IH.
Qed.

Lemma get_None_keys k m : get k m = None <-> k ∉ keys m.
Proof.
  induction m as [|[k' v'] m IH]; simpl.
  - split; [intros _; apply not_elem_of_nil|done].
  - rewrite not_elem_of_cons. destruct (String.eqb k' k) eqn:E.
    + apply String.eqb_eq in E as ->. split; [done|]. by intros [? _].
    + apply String.eqb_neq in E. rewrite IH. split; [|tauto].
      intros H. split; [congruence|done].
Qed.

Lemma elem_get k v m : NoDup (keys m) -> (k, v) ∈ m -> get k m = Some v.
Proof.
  induction m as [|[k' v'] m IH]; simpl.
  - intros _ H. by apply elem_of_nil in H.
  - intros Hnd H. apply NoDup_cons in Hnd as [Hk Hnd].
    apply elem_of_cons in H as [[= <- <-]|H].
    + by rewrite String.eqb_refl.
    + destruct (String.eqb k' k) eqn:E.
      * apply String.eqb_eq in E as ->. destruct Hk.
        apply list_elem_of_fmap. by exists (k, v).
      * by apply IH.
Qed.

Lemma keys_set_present k v m : k ∈ keys m -> keys (set k v m) = keys m.
Proof.
  induction m as [|[k' v'] m IH]; simpl.
  - intros H. by apply elem_of_nil in H.
  - intros H. destruct (String.eqb k' k) eqn:E; simpl.
    + by apply String.eqb_eq in E as ->.
    + apply String.eqb_neq in E. f_equal. apply IH.
      apply elem_of_cons in H as [?|?]; [congruence|done].
Qed.

Lemma keys_set_absent k v m : k ∉ keys m -> keys (set k v m) = keys m ++ [k].
Proof.
  induction m as [|[k' v'] m IH]; simpl; [done|].
  intros H. apply not_elem_of_cons in H as [Hne H].
  destruct (String.eqb k' k) eqn:E.
  - apply String.eqb_eq in E. congruence.
  - simpl. f_equal. by apply IH.
Qed.

Lemma keys_set_NoDup k v m : NoDup (keys m) -> NoDup (keys (set k v m)).
Proof.
  intros Hnd. destruct (decide (k ∈ keys m)) as [Hin|Hout].
  - by rewrite keys_set_present.
  - rewrite keys_set_absent by done. apply NoDup_app. split; [done|].
    split; [|apply NoDup_singleton].
    intros x Hx Hk. apply list_elem_of_singleton in Hk as ->. done.
Qed.

Lemma elem_of_set k v m entry :
  NoDup (keys m) ->
  entry ∈ set k v m -> entry = (k, v) \/ (entry ∈ m /\ entry.1 <> k).
Proof.
  induction m as [|[k' v'] m IH]; simpl.
  - intros _ H. apply list_elem_of_singleton in H. by left.
  - intros Hnd. apply NoDup_cons in Hnd as [Hk Hnd].
    destruct (String.eqb k' k) eqn:E.
    + apply String.eqb_eq in E as ->. intros H.
      apply elem_of_cons in H as [->|H]; [by left|].
      right. split; [by right|]. intros Heq. apply Hk.
      apply list_elem_of_fmap. by exists entry.
    + apply String.eqb_neq in E. intros H.
      apply elem_of_cons in H as [->|H].
      * right. split; [left|done].
      * destruct (IH Hnd H) as [?|[? ?]]; [by left|].
        right. split; [by right|done].
Qed.

Lemma elem_of_set_new k v m : (k, v) ∈ set k v m.
Proof. apply get_Some_elem, get_set_eq. Qed.

End Facts.

End JsMapFacts.

Module JsArrayFacts.

Import JsArray.

Section Sorting.

Context {A : Type}.

Variable compare : A -> A -> Z.

Lemma insertSorted_Permutation x l : insertSorted compare x l ≡ₚ x :: l.
Proof.
  induction l as [|y l IH]; simpl; [done|].
  destruct (0 <? compare x y)%Z; [|done].
  rewrite IH. apply Permutation_swap.
Qed.

Lemma sort_Permutation l : sort compare l ≡ₚ l.
Proof.
  induction l as [|x l IH]; simpl; [done|].
  change (foldr (insertSorted compare) [] l) with (sort compare l).
  by rewrite insertSorted_Permutation, IH.
Qed.

Lemma elem_of_sort x l : x ∈ sort compare l <-> x ∈ l.
Proof. by rewrite sort_Permutation. Qed.

(** The order that the comparator stands for. *)
Variable before : A -> A -> Prop.

Hypothesis compare_before : forall x y, before x y <-> (compare x y <= 0)%Z.
Hypothesis before_total : forall x y, before x y \/ before y x.
Hypothesis before_trans : forall x y z, before x y -> before y z -> before x z.

Lemma insertSorted_sorted x l :
  StronglySorted before l -> StronglySorted before (insertSorted compare x l).
Proof.
  induction 1 as [|y l Hl IH Hy]; simpl.
  - repeat constructor.
  - destruct (0 <? compare x y)%Z eqn:E.
    + apply Z.ltb_lt in E. constructor; [done|].
      apply Forall_forall. intros z Hz.
      apply (elem_of_Permutation_proper _ _ _ (insertSorted_Permutation x l))
        in Hz.
      apply elem_of_cons in Hz as [->|Hz].
      * destruct (before_total y x) as [|Hxy]; [done|].
        apply compare_before in Hxy. lia.
      * by eapply Forall_forall in Hy.
    + apply Z.ltb_ge in E. apply compare_before in E.
      constructor; [by constructor|]. constructor; [done|].
      eapply Forall_impl; [exact Hy|]. intros z Hz. by eapply before_trans.
Qed.

Lemma sort_sorted l : StronglySorted before (sort compare l).
Proof.
  induction l as [|x l IH]; simpl; [constructor|].
  by apply insertSorted_sorted.
Qed.

End Sorting.

Lemma find_Some {A} (p : A -> bool) l x :
  find p l = Some x -> x ∈ l /\ p x = true.
Proof.
  induction l as [|y l IH]; simpl; [done|].
  destruct (p y) eqn:E.
  - intros [= ->]. split; [left|done].
  - intros H. destruct (IH H). split; [by right|done].
Qed.

End JsArrayFacts.

Module JsParseFacts.

Import JsString JsParse.

Local Open Scope Z_scope.

(** The ten characters that [toString] writes for a natural number. *)
Lemma pretty_N_char_digit n :
  (n < 10)%N ->
  digitValue 10 (pretty_N_char n) = Some (Z.of_N n)
  /\ isWhiteSpace (pretty_N_char n) = false
  /\ isX (pretty_N_char n) = false
  /\ Nat.eqb (codeUnit (pretty_N_char n)) 45 = false
  /\ Nat.eqb (codeUnit (pretty_N_char n)) 43 = false.
Proof.
  intros Hn.
  rewrite <- (N2Nat.id n) in *. set (k := N.to_nat n) in *.
  assert (k < 10)%nat as Hk by lia. clearbody k. clear Hn.
  do 10 (destruct k as [|k]; [by vm_compute|]). lia.
Qed.

(** A text that starts like a decimal numeral: a digit first, and no [x]
    after it. *)
Local Abbreviation startsWithDigit s :=
  (match s with
   | String c0 rest =>
       (exists d, digitValue 10 c0 = Some d)
       /\ isWhiteSpace c0 = false /\ isX c0 = false
       /\ Nat.eqb (codeUnit c0) 45 = false
       /\ Nat.eqb (codeUnit c0) 43 = false
       /\ match rest with
          | String c1 _ => isX c1 = false
          | EmptyString => True
          end
   | EmptyString => False
   end).

Lemma pretty_N_go_startsWithDigit x s :
  startsWithDigit s -> startsWithDigit (pretty_N_go x s).
Proof.
  revert s. induction (N.lt_wf_0 x) as [x _ IH]. intros s Hs.
  destruct (decide (x = 0)%N) as [->|Hx]; [by rewrite pretty_N_go_0|].
  rewrite pretty_N_go_step by lia.
  apply IH; [apply N.div_lt; lia|].
  destruct (pretty_N_char_digit (x `mod` 10)) as (Hd & Hw & Hx' & Hm & Hp);
    [apply N.mod_lt; lia|].
  repeat split; try done; [by eexists|].
  destruct s as [|c rest]; [done|]. tauto.
Qed.

Lemma pretty_N_go_positive_startsWithDigit x :
  (0 < x)%N -> startsWithDigit (pretty_N_go x "").
Proof.
  intros Hx. rewrite pretty_N_go_step by done.
  apply pretty_N_go_startsWithDigit.
  destruct (pretty_N_char_digit (x `mod` 10)) as (Hd & Hw & Hx' & Hm & Hp);
    [apply N.mod_lt; lia|].
  repeat split; try done. by eexists.
Qed.

(** Reading the digits back gives the number. *)
Lemma digitsFrom_pretty_N_go x :
  exists k : Z, 0 <= k /\ forall s acc,
    digitsFrom 10 acc (pretty_N_go x s)
    = digitsFrom 10 (acc * 10 ^ k + Z.of_N x) s.
Proof.
  induction (N.lt_wf_0 x) as [x _ IH].
  destruct (decide (x = 0)%N) as [->|Hx].
  - exists 0. split; [done|]. intros s acc. rewrite pretty_N_go_0.
    f_equal. lia.
  - destruct (IH (x `div` 10)%N) as (k & Hk & IHk); [apply N.div_lt; lia|].
    exists (k + 1). split; [lia|]. intros s acc.
    rewrite pretty_N_go_step by lia. rewrite IHk. simpl.
    destruct (pretty_N_char_digit (x `mod` 10)) as (-> & _);
      [apply N.mod_lt; lia|].
    f_equal. rewrite Z.pow_add_r by lia.
    rewrite (N.div_mod x 10) at 3 by lia.
    rewrite N2Z.inj_add, N2Z.inj_mul. change (Z.of_N 10) with 10. lia.
Qed.

Lemma parseInt_startsWithDigit s :
  startsWithDigit s -> parseInt s = Some (digitsFrom 10 0 s).
Proof.
  destruct s as [|c0 rest]; [done|].
  intros ([d Hd] & Hw & Hx & Hm & Hp & Hrest).
  unfold parseInt. cbn [trimStart]. rewrite Hw. cbv zeta.
  rewrite Hm, Hp. cbn [fst snd].
  assert ((match rest with
           | String c1 rest0 =>
               if Nat.eqb (codeUnit c0) 48 && isX c1
               then (16, rest0)
               else (10, String c0 rest)
           | EmptyString => (10, String c0 rest)
           end) = (10, String c0 rest)) as ->.
  { destruct rest as [|c1 rest0]; [done|]. by rewrite Hrest, andb_false_r. }
  cbn [fst snd]. unfold digits. rewrite Hd.
  f_equal. lia.
Qed.

Lemma parseInt_pretty_N x : parseInt (pretty x) = Some (Z.of_N x).
Proof.
  unfold pretty, pretty_N.
  destruct (decide (x = 0)%N) as [->|Hx]; [by vm_compute|].
  rewrite parseInt_startsWithDigit
    by (apply pretty_N_go_positive_startsWithDigit; lia).
  destruct (digitsFrom_pretty_N_go x) as (k & _ & ->). cbn [digitsFrom].
  f_equal; lia.
Qed.

(** [parseInt] reads back what [toString] writes for a natural number. *)
Lemma parseInt_pretty (n : Z) : 0 <= n -> parseInt (pretty n) = Some n.
Proof.
  intros Hn. destruct n as [|p|p]; [by vm_compute| |lia].
  unfold pretty, pretty_Z, pretty, pretty_positive.
  by rewrite parseInt_pretty_N.
Qed.

End JsParseFacts.

(** * The storage: order of the listings, key rotation, usage counts *)

Module StorageFacts.

Import JsParse Storage JsMapFacts JsArrayFacts JsParseFacts.

Local Open Scope Z_scope.

Lemma usedBefore_compare a b : usedBefore a b <-> compareLastUsed a b <= 0.
Proof.
  unfold usedBefore, compareLastUsed.
  destruct (lastUsed a), (lastUsed b); intuition lia.
Qed.

Lemma usedBefore_total a b : usedBefore a b \/ usedBefore b a.
Proof.
  unfold usedBefore. destruct (lastUsed a), (lastUsed b); intuition lia.
Qed.

Lemma usedBefore_trans a b c :
  usedBefore a b -> usedBefore b c -> usedBefore a c.
Proof.
  unfold usedBefore.
  destruct (lastUsed a), (lastUsed b), (lastUsed c); intuition lia.
Qed.

Lemma elem_of_values {V} (m : JsMap.t V) v :
  v ∈ JsMap.values m <-> exists k, (k, v) ∈ m.
Proof.
  unfold JsMap.values. rewrite list_elem_of_fmap. split.
  - intros ([k v'] & -> & H). by exists k.
  - intros [k H]. by exists (k, v).
Qed.

Lemma elem_of_getActiveApiKeys wanted s key :
  key ∈ getActiveApiKeys wanted s
  <-> key ∈ JsMap.values (apiKeys s)
      /\ provider key = wanted /\ isActive key = true.
Proof.
  unfold getActiveApiKeys. rewrite elem_of_sort, list_elem_of_filter. tauto.
Qed.

Lemma getActiveApiKeys_sorted wanted s :
  StronglySorted usedBefore (getActiveApiKeys wanted s).
Proof.
  apply sort_sorted.
  - apply usedBefore_compare.
  - apply usedBefore_total.
  - apply usedBefore_trans.
Qed.

(** A stored key is found under its own identifier. *)
Lemma keysConsistent_lookup s key :
  keysConsistent s ->
  key ∈ JsMap.values (apiKeys s) ->
  JsMap.get (keyId key) (apiKeys s) = Some key.
Proof.
  intros [Hnd Hid] Hkey. apply elem_of_values in Hkey as [k Hk].
  pose proof Hk as Hk'. eapply Forall_forall in Hk'; [|exact Hid].
  simpl in Hk'. rewrite Hk'. by apply elem_get.
Qed.

Lemma keysConsistent_get s id key :
  keysConsistent s -> JsMap.get id (apiKeys s) = Some key -> keyId key = id.
Proof.
  intros [_ Hid] Hget. apply get_Some_elem in Hget.
  by eapply Forall_forall in Hget; [|exact Hid].
Qed.

Lemma keysConsistent_set s id key :
  keysConsistent s -> keyId key = id ->
  keysConsistent (withApiKeys (JsMap.set id key (apiKeys s)) s).
Proof.
  intros [Hnd Hid] Hkey. split; simpl.
  - by apply keys_set_NoDup.
  - apply Forall_forall. intros entry Hentry.
    apply elem_of_set in Hentry; [|done].
    destruct Hentry as [->|[Hentry _]]; [done|].
    by eapply Forall_forall in Hentry; [|exact Hid].
Qed.

Lemma keys_delete_sublist {V} k (m : JsMap.t V) :
  sublist (JsMap.keys (JsMap.delete k m)) (JsMap.keys m).
Proof.
  induction m as [|[k' v'] m IH]; simpl; [done|].
  destruct (String.eqb k' k).
  - by apply sublist_cons.
  - by apply sublist_skip.
Qed.

Lemma elem_of_delete {V} k (m : JsMap.t V) entry :
  entry ∈ JsMap.delete k m -> entry ∈ m.
Proof.
  induction m as [|[k' v'] m IH]; simpl; [done|].
  destruct (String.eqb k' k).
  - by right.
  - intros H. apply elem_of_cons in H as [->|H]; [left|right; by apply IH].
Qed.

(** X13 ([getActiveApiKeys]). The listing holds exactly the active keys
    of the provider, each as often as it is stored, with the keys never
    used first and the others by increasing date of last use. *)
Theorem active_keys_least_recently_used_first wanted s :
  getActiveApiKeys wanted s
    ≡ₚ filter (fun key => provider key = wanted /\ isActive key = true)
              (JsMap.values (apiKeys s))
  /\ StronglySorted usedBefore (getActiveApiKeys wanted s).
Proof.
  split.
  - apply sort_Permutation.
  - apply getActiveApiKeys_sorted.
Qed.

(** X14 ([getMessagesByConversation]). The history of a conversation
    holds exactly the stored messages of that conversation, oldest
    first. *)
Theorem conversation_history_oldest_first id s :
  getMessagesByConversation id s
    ≡ₚ filter (fun msg => messageConversationId msg = id)
              (JsMap.values (messages s))
  /\ StronglySorted (fun a b => messageCreatedAt a <= messageCreatedAt b)
                    (getMessagesByConversation id s).
Proof.
  split.
  - apply sort_Permutation.
  - apply sort_sorted.
    + intros a b. unfold compareCreatedAsc. lia.
    + intros a b. lia.
    + intros a b c. lia.
Qed.

(** The store after a key has been created and then used once for each
    pair of dates. *)
Local Abbreviation usedTimes id dates s :=
  (foldl (fun st d => incrementApiKeyUsage id d.1 d.2 st) s dates).

Section Crypto.

Variable encryptKey : string -> string -> string.
Variable decryptKey : string -> option string.

Lemma incrementApiKeyUsage_consistent id t u s :
  keysConsistent s -> keysConsistent (incrementApiKeyUsage id t u s).
Proof.
  intros Hs. unfold incrementApiKeyUsage.
  destruct (JsMap.get id (apiKeys s)) as [key|] eqn:Hget; [|done].
  apply keysConsistent_set; [done|]. simpl. by eapply keysConsistent_get.
Qed.

Lemma incrementApiKeyUsage_get id t u s key :
  JsMap.get id (apiKeys s) = Some key ->
  exists key',
    JsMap.get id (apiKeys (incrementApiKeyUsage id t u s)) = Some key'
    /\ keyId key' = keyId key /\ provider key' = provider key
    /\ isActive key' = isActive key /\ keyValue key' = keyValue key
    /\ lastUsed key' = Some t /\ keyUpdatedAt key' = u
    /\ usageCount key'
       = pretty (default 0 (parseInt (usageCount key)) + 1).
Proof.
  intros Hget. unfold incrementApiKeyUsage. rewrite Hget. simpl.
  eexists. split; [apply get_set_eq|]. by repeat split.
Qed.

Lemma incrementApiKeyUsage_get_ne id id' t u s :
  id <> id' ->
  JsMap.get id' (apiKeys (incrementApiKeyUsage id t u s))
  = JsMap.get id' (apiKeys s).
Proof.
  intros Hne. unfold incrementApiKeyUsage.
  destruct (JsMap.get id (apiKeys s)); [|done]. simpl.
  by apply get_set_ne.
Qed.

(** X15 ([createApiKey], [incrementApiKeyUsage]). The usage count
    counts: a key that has been created and then used [k] times, with
    [k] below 2^53, carries the decimal numeral of [k], and the date of
    its last use is that of the last call. *)
Theorem usage_count_counts_uses id now iv insert s dates :
  Z.of_nat (length dates) < 2 ^ 53 ->
  exists key,
    JsMap.get id
      (apiKeys (usedTimes id dates (createApiKey encryptKey id now iv insert s).2))
    = Some key
    /\ usageCount key = pretty (Z.of_nat (length dates))
    /\ lastUsed key = fst <$> last dates
    /\ keyValue key = encryptKey iv (insertKeyValue insert).
Proof.
  induction dates as [|d dates IH] using rev_ind; intros Hlen.
  - simpl. eexists. split; [apply get_set_eq|]. by repeat split.
  - rewrite length_app in Hlen. simpl in Hlen.
    destruct IH as (key & Hget & Hcount & _ & Hvalue); [lia|].
    rewrite foldl_app. simpl.
    destruct (incrementApiKeyUsage_get id d.1 d.2 _ _ Hget)
      as (key' & Hget' & _ & _ & _ & Hvalue' & Hused & _ & Hcount').
    exists key'. split; [exact Hget'|].
    rewrite Hcount', Hcount, parseInt_pretty by lia.
    rewrite last_snoc, length_app. simpl.
    repeat split; [f_equal; lia|done|congruence].
Qed.

(** X16 ([createApiKey], [updateApiKey], [deleteApiKey],
    [incrementApiKeyUsage]). Every method that writes the key map keeps
    each key stored once and under its own identifier. *)
Theorem key_methods_keep_store_consistent s :
  keysConsistent s ->
  (forall id now iv insert,
      keysConsistent (createApiKey encryptKey id now iv insert s).2)
  /\ (forall id now iv updates,
         keysConsistent (updateApiKey encryptKey id now iv updates s).2)
  /\ (forall id, keysConsistent (deleteApiKey id s).2)
  /\ (forall id t u, keysConsistent (incrementApiKeyUsage id t u s)).
Proof.
  intros Hs. split; [|split; [|split]].
  - intros id now iv insert. by apply keysConsistent_set.
  - intros id now iv updates. unfold updateApiKey.
    destruct (JsMap.get id (apiKeys s)) as [key|] eqn:Hget; [|apply Hs].
    simpl. apply keysConsistent_set; [done|]. simpl.
    by eapply keysConsistent_get.
  - intros id. destruct Hs as [Hnd Hid]. split; simpl.
    + eapply sublist_NoDup; [exact Hnd|apply keys_delete_sublist].
    + apply Forall_forall. intros entry Hentry.
      apply elem_of_delete in Hentry.
      by eapply Forall_forall in Hentry; [|exact Hid].
  - intros id t u. by apply incrementApiKeyUsage_consistent.
Qed.

End Crypto.

(** The example: a new key used three times. *)
Lemma usage_count_counts_uses_witness :
  exists key,
    JsMap.get "k"
      (apiKeys (usedTimes "k" [(1, 1); (2, 2); (3, 3)]
         (createApiKey plainCipher "k" 0 "iv"
            {| insertName := "n"; insertProvider := "github";
               insertKeyValue := "v"; insertIsActive := None |} empty).2))
    = Some key
    /\ usageCount key = pretty (Z.of_nat 3)
    /\ lastUsed key = Some 3
    /\ keyValue key = "iv:v"%string.
Proof.
  apply (usage_count_counts_uses plainCipher "k" 0 "iv"
           {| insertName := "n"; insertProvider := "github";
              insertKeyValue := "v"; insertIsActive := None |}
           empty [(1, 1); (2, 2); (3, 3)]).
  vm_compute. reflexivity.
Defined.

Lemma twoKeys_consistent : keysConsistent twoKeys.
Proof.
  split; [|by repeat constructor].
  apply (bool_decide_unpack _). by vm_compute.
Qed.

Lemma key_methods_keep_store_consistent_witness :
  keysConsistent (deleteApiKey "a" twoKeys).2
  /\ keysConsistent (incrementApiKeyUsage "b" 7 7 twoKeys).
Proof.
  split;
    apply (key_methods_keep_store_consistent plainCipher twoKeys
             twoKeys_consistent).
Defined.

End StorageFacts.

(** * The route helpers: key rotation, admin access, titles, audio URLs *)

Module RoutesFacts.

Import JsParse Storage Routes JsMapFacts JsArrayFacts StorageFacts.

Local Open Scope Z_scope.

(** ** Lengths and parts of strings *)

Lemma length_append (a b : string) :
  String.length (a +:+ b) = (String.length a + String.length b)%nat.
Proof. induction a as [|c a IH]; simpl; [done|]. by rewrite IH. Qed.

Lemma substring_length s n m :
  String.length (String.substring n m s)
  = Nat.min m (String.length s - n).
Proof.
  revert n m. induction s as [|c s IH]; intros [|n] [|m]; simpl;
    try done; try (rewrite IH; lia).
Qed.

(** The first [m] code units are the start of the text. *)
Lemma substring_start s m :
  exists rest, s = String.substring 0 m s +:+ rest.
Proof.
  revert m. induction s as [|c s IH]; intros [|m]; simpl.
  - by exists "".
  - by exists "".
  - by eexists.
  - destruct (IH m) as [rest Hrest]. exists rest. simpl.
    change (String c s = String c (String.substring 0 m s +:+ rest)).
    by f_equal.
Qed.

(** A part that reaches the end of the text is the end of the text. *)
Lemma substring_end s n m :
  (String.length s <= n + m)%nat ->
  exists front, s = front +:+ String.substring n m s.
Proof.
  revert n m. induction s as [|c s IH]; intros n m Hlen.
  - exists "". by destruct n, m.
  - destruct n as [|n].
    + exists "". destruct m as [|m]; simpl in Hlen; [lia|].
      change (String c s = String c (String.substring 0 m s)).
      f_equal. destruct (IH 0%nat m) as [front Hfront]; [lia|].
      assert (String.length front = 0%nat) as Hzero.
      { apply (f_equal String.length) in Hfront.
        rewrite length_append, substring_length in Hfront. lia. }
      destruct front; [|done]. exact Hfront.
    + simpl in Hlen. destruct (IH n m) as [front Hfront]; [lia|].
      exists (String c front).
      change (String c s = String c (front +:+ String.substring n m s)).
      by f_equal.
Qed.

Section NextKey.

Variable decryptKey : string -> option string.

Local Abbreviation getNextApiKey := (Routes.getNextApiKey decryptKey).

(** What a successful call of [getNextApiKey] has done. *)
Lemma getNextApiKey_Some wanted t u s plain id s' :
  getNextApiKey wanted t u s = (Some (plain, id), s') ->
  exists nextKey rest,
    getActiveApiKeys wanted s = nextKey :: rest
    /\ id = keyId nextKey
    /\ getDecryptedApiKey decryptKey id s = Some plain
    /\ plain <> ""%string
    /\ s' = incrementApiKeyUsage id t u s.
Proof.
  unfold Routes.getNextApiKey.
  destruct (getActiveApiKeys wanted s) as [|nextKey rest] eqn:Hkeys; [done|].
  destruct (getDecryptedApiKey decryptKey (keyId nextKey) s)
    as [decrypted|] eqn:Hplain; [|done].
  destruct (String.eqb decrypted "") eqn:E; [done|].
  intros [= <- <- <-]. apply String.eqb_neq in E.
  exists nextKey, rest. repeat split; assumption || reflexivity.
Qed.

(** X17 ([getNextApiKey]). The key handed out is an active key of the
    provider that no other active key of the provider precedes in use;
    the text returned is its decrypted value, which is not empty. *)
Theorem next_key_is_least_recently_used wanted t u s plain id s' :
  keysConsistent s ->
  getNextApiKey wanted t u s = (Some (plain, id), s') ->
  exists key,
    JsMap.get id (apiKeys s) = Some key
    /\ provider key = wanted /\ isActive key = true
    /\ decryptKey (keyValue key) = Some plain /\ plain <> ""%string
    /\ forall other,
         other ∈ JsMap.values (apiKeys s) ->
         provider other = wanted -> isActive other = true ->
         usedBefore key other.
Proof.
  intros Hs Hnext.
  apply getNextApiKey_Some in Hnext
    as (nextKey & rest & Hkeys & -> & Hplain & Hne & _).
  assert (nextKey ∈ getActiveApiKeys wanted s) as Hin
    by (rewrite Hkeys; left).
  apply elem_of_getActiveApiKeys in Hin as (Hstored & Hprov & Hact).
  pose proof (keysConsistent_lookup s nextKey Hs Hstored) as Hget.
  exists nextKey. unfold getDecryptedApiKey in Hplain.
  rewrite Hget in Hplain. repeat split; try done.
  intros other Hother Hp Ha.
  assert (other ∈ getActiveApiKeys wanted s) as Hin'
    by (by apply elem_of_getActiveApiKeys).
  pose proof (getActiveApiKeys_sorted wanted s) as Hsorted.
  rewrite Hkeys in Hsorted, Hin'.
  apply StronglySorted_inv in Hsorted as [_ Hall].
  apply elem_of_cons in Hin' as [->|Hin'].
  - destruct (usedBefore_total nextKey nextKey); done.
  - by eapply Forall_forall in Hall.
Qed.

(** X18 ([getNextApiKey], [incrementApiKeyUsage]). Handing out a key
    stamps that key with the date of the call and changes no other key,
    no conversation and no message. *)
Theorem next_key_marks_only_the_chosen_key wanted t u s plain id s' :
  getNextApiKey wanted t u s = (Some (plain, id), s') ->
  (exists key key',
      JsMap.get id (apiKeys s) = Some key
      /\ JsMap.get id (apiKeys s') = Some key'
      /\ lastUsed key' = Some t
      /\ keyValue key' = keyValue key
      /\ isActive key' = isActive key /\ provider key' = provider key)
  /\ (forall id', id' <> id ->
        JsMap.get id' (apiKeys s') = JsMap.get id' (apiKeys s))
  /\ conversations s' = conversations s
  /\ messages s' = messages s.
Proof.
  intros Hnext.
  apply getNextApiKey_Some in Hnext
    as (nextKey & rest & Hkeys & Hid & Hplain & Hne & ->).
  unfold getDecryptedApiKey in Hplain.
  destruct (JsMap.get id (apiKeys s)) as [key|] eqn:Hget; [|done].
  split; [|split].
  - destruct (incrementApiKeyUsage_get id t u s key Hget)
      as (key' & Hget' & _ & Hp & Ha & Hv & Hu & _).
    by exists key, key'.
  - intros id' Hne'. by apply incrementApiKeyUsage_get_ne.
  - unfold incrementApiKeyUsage. by rewrite Hget.
Qed.

(** X19 ([getNextApiKey]). Rotation: while another active key of the
    provider has not been used since the date of a call, the next call
    does not hand out the same key again. *)
Theorem next_key_rotates wanted t u t' u' s plain id s1 plain' id' s2 other :
  keysConsistent s ->
  getNextApiKey wanted t u s = (Some (plain, id), s1) ->
  other ∈ getActiveApiKeys wanted s ->
  keyId other <> id ->
  (forall used, lastUsed other = Some used -> used < t) ->
  getNextApiKey wanted t' u' s1 = (Some (plain', id'), s2) ->
  id' <> id.
Proof.
  intros Hs Hnext Hother Hne Hused Hnext' ->.
  apply getNextApiKey_Some in Hnext
    as (nextKey & rest & Hkeys & Hid & Hplain & _ & ->).
  apply getNextApiKey_Some in Hnext'
    as (nextKey' & rest' & Hkeys' & Hid' & _ & _ & _).
  set (s1 := incrementApiKeyUsage id t u s) in *.
  assert (keysConsistent s1) as Hs1
    by (by apply incrementApiKeyUsage_consistent).
  unfold getDecryptedApiKey in Hplain.
  destruct (JsMap.get id (apiKeys s)) as [key|] eqn:Hget; [|done].
  destruct (incrementApiKeyUsage_get id t u s key Hget)
    as (key' & Hget' & _ & _ & _ & _ & Hlast & _). fold s1 in Hget'.
  (* the key handed out by the second call is the stamped one *)
  assert (nextKey' ∈ getActiveApiKeys wanted s1) as Hin'
    by (rewrite Hkeys'; left).
  apply elem_of_getActiveApiKeys in Hin' as (Hstored' & _ & _).
  pose proof (keysConsistent_lookup s1 nextKey' Hs1 Hstored') as Hget''.
  rewrite <- Hid', Hget' in Hget''. injection Hget'' as <-.
  (* the other key is still listed, untouched *)
  apply elem_of_getActiveApiKeys in Hother as (Hstored & Hp & Ha).
  pose proof (keysConsistent_lookup s other Hs Hstored) as Hgeto.
  rewrite <- (incrementApiKeyUsage_get_ne id (keyId other) t u s) in Hgeto
    by done.
  fold s1 in Hgeto. apply get_Some_elem in Hgeto.
  assert (other ∈ getActiveApiKeys wanted s1) as Hin.
  { apply elem_of_getActiveApiKeys. split; [|done].
    apply elem_of_values. by eexists. }
  pose proof (getActiveApiKeys_sorted wanted s1) as Hsorted.
  rewrite Hkeys' in Hsorted, Hin.
  apply StronglySorted_inv in Hsorted as [_ Hall].
  apply elem_of_cons in Hin as [->|Hin]; [congruence|].
  eapply Forall_forall in Hall; [|exact Hin].
  unfold usedBefore in Hall. rewrite Hlast in Hall.
  destruct (lastUsed other) as [used|] eqn:E; [|done].
  specialize (Hused used eq_refl). lia.
Qed.

(** X20 ([getNextApiKey]). A call that hands out no key leaves the
    store as it was, so every later call on that store fails as well,
    whatever the date: a first key that cannot be decrypted blocks its
    provider. *)
Theorem next_key_failure_is_permanent wanted t u s s' :
  getNextApiKey wanted t u s = (None, s') ->
  s' = s /\ forall t' u', getNextApiKey wanted t' u' s = (None, s).
Proof.
  unfold Routes.getNextApiKey.
  destruct (getActiveApiKeys wanted s) as [|nextKey rest]; [by intros [= <-]|].
  destruct (getDecryptedApiKey decryptKey (keyId nextKey) s) as [plain|];
    [|by intros [= <-]].
  destruct (String.eqb plain ""); [by intros [= <-]|done].
Qed.

Lemma getNextApiKey_frame wanted t u s :
  conversations (getNextApiKey wanted t u s).2 = conversations s
  /\ messages (getNextApiKey wanted t u s).2 = messages s.
Proof.
  unfold Routes.getNextApiKey.
  destruct (getActiveApiKeys wanted s) as [|nextKey rest]; [done|].
  destruct (getDecryptedApiKey decryptKey (keyId nextKey) s) as [plain|];
    [|done].
  destruct (String.eqb plain ""); [done|]. simpl.
  unfold incrementApiKeyUsage.
  by destruct (JsMap.get (keyId nextKey) (apiKeys s)).
Qed.

End NextKey.

Section Admin.

Variable encryptKey : string -> string -> string.
Variable envAdminPassword : option string.

(** A request that is answered with an error and changes nothing. *)
Local Abbreviation refused result s :=
  (result.2 = s
   /\ (status result.1 = 401%nat \/ status result.1 = 500%nat)
   /\ shownKeys (body result.1) = []).

(** X21 ([verifyAdminPassword] and the four admin routes). Without the
    admin password no admin route changes the store or shows a key: the
    answer is the status 401, or 500 when the request is malformed. *)
Theorem admin_routes_require_password password s :
  verifyAdminPassword envAdminPassword password = false ->
  refused (adminGetKeys envAdminPassword password s) s
  /\ (forall id now iv name wanted value,
        refused (adminAddKey encryptKey envAdminPassword id now iv
                             name wanted value password s) s)
  /\ (forall now iv id active,
        refused (adminUpdateKey encryptKey envAdminPassword now iv id
                                active password s) s)
  /\ (forall id,
        refused (adminDeleteKey envAdminPassword id password s) s).
Proof.
  intros Hpw. split; [|split; [|split]].
  - unfold adminGetKeys. rewrite Hpw.
    destruct (negb (nonEmpty password)); simpl; tauto.
  - intros id now iv name wanted value. unfold adminAddKey. rewrite Hpw.
    destruct (negb _); simpl; tauto.
  - intros now iv id active. unfold adminUpdateKey. rewrite Hpw.
    destruct (negb (nonEmpty password)); simpl; tauto.
  - intros id. unfold adminDeleteKey. rewrite Hpw.
    destruct (negb (nonEmpty password)); simpl; tauto.
Qed.

(** X22 (the admin routes, [createApiKey], [updateApiKey]). Whatever
    an admin route answers, each key it shows is a stored key whose
    value has been replaced by five asterisks and the last four
    characters of the stored text: at most nine characters. *)
Theorem admin_routes_mask_key_values password s :
  let shown result :=
    forall key, key ∈ shownKeys (body result.1) ->
      exists stored front,
        stored ∈ JsMap.values (apiKeys result.2)
        /\ key = safeKey stored
        /\ keyValue stored = front +:+ sliceLast 4 (keyValue stored)
        /\ keyValue key = "*****" +:+ sliceLast 4 (keyValue stored)
        /\ (String.length (keyValue key) <= 9)%nat in
  shown (adminGetKeys envAdminPassword password s)
  /\ (forall id now iv name wanted value,
        shown (adminAddKey encryptKey envAdminPassword id now iv
                           name wanted value password s))
  /\ (forall now iv id active,
        shown (adminUpdateKey encryptKey envAdminPassword now iv id
                              active password s))
  /\ (forall id,
        shown (adminDeleteKey envAdminPassword id password s)).
Proof.
  intros shown.
  assert (forall stored m key,
             stored ∈ JsMap.values m -> key = safeKey stored ->
             exists stored front,
               stored ∈ JsMap.values m
               /\ key = safeKey stored
               /\ keyValue stored = front +:+ sliceLast 4 (keyValue stored)
               /\ keyValue key = "*****" +:+ sliceLast 4 (keyValue stored)
               /\ (String.length (keyValue key) <= 9)%nat) as Hmask.
  { intros stored m key Hin ->.
    destruct (substring_end (keyValue stored)
                (String.length (keyValue stored) - 4) 4) as [front Hfront];
      [lia|].
    exists stored, front. repeat split; try done.
    cbn [safeKey keyValue]. unfold maskKey, sliceLast.
    rewrite length_append, substring_length.
    change (String.length "*****") with 5%nat. lia. }
  unfold shown. split; [|split; [|split]].
  - unfold adminGetKeys.
    destruct (negb (nonEmpty password));
      [intros key H; by apply elem_of_nil in H|].
    destruct (negb (verifyAdminPassword _ _));
      [intros key H; by apply elem_of_nil in H|].
    simpl. intros key Hkey. apply list_elem_of_fmap in Hkey as (stored & -> & Hin).
    by eapply Hmask.
  - intros id now iv name wanted value. unfold adminAddKey.
    destruct (negb (_ && _));
      [intros key H; by apply elem_of_nil in H|].
    destruct (negb (verifyAdminPassword _ _));
      [intros key H; by apply elem_of_nil in H|].
    simpl. intros key Hkey. apply list_elem_of_singleton in Hkey.
    eapply Hmask; [|exact Hkey].
    apply elem_of_values. eexists. apply elem_of_set_new.
  - intros now iv id active. unfold adminUpdateKey.
    destruct (negb (nonEmpty password));
      [intros key H; by apply elem_of_nil in H|].
    destruct (negb (verifyAdminPassword _ _));
      [intros key H; by apply elem_of_nil in H|].
    unfold updateApiKey.
    destruct (JsMap.get id (apiKeys s));
      [|intros key H; by apply elem_of_nil in H].
    simpl. intros key Hkey. apply list_elem_of_singleton in Hkey.
    eapply Hmask; [|exact Hkey].
    apply elem_of_values. eexists. apply elem_of_set_new.
  - intros id. unfold adminDeleteKey.
    destruct (negb (nonEmpty password));
      [intros key H; by apply elem_of_nil in H|].
    destruct (negb (verifyAdminPassword _ _));
      [intros key H; by apply elem_of_nil in H|].
    simpl. destruct (JsMap.has id (apiKeys s));
      intros key H; by apply elem_of_nil in H.
Qed.

End Admin.

Section Chat.

Variable decryptKey : string -> option string.

Lemma getChatCompletion_no_answer env apiKey :
  modelAnswer env = None -> getChatCompletion env apiKey = None.
Proof.
  intros Hno. unfold getChatCompletion. rewrite Hno.
  by repeat case_match.
Qed.

(** X25 ([POST /api/chat], [getChatCompletion]). When the call of the
    model fails on the first message of a conversation, the request is
    answered with status 500, yet the new conversation and the message
    of the user stay stored. *)
Theorem failed_chat_keeps_user_message env message s :
  message <> ""%string ->
  modelAnswer env = None ->
  let result := handleChat decryptKey env message None s in
  status result.1 = 500%nat
  /\ JsMap.get (userMessageId env) (messages result.2)
     = Some {| messageId := userMessageId env;
               messageConversationId := newConversationId env;
               content := message; isUser := true;
               messageCreatedAt := userMessageDate env |}
  /\ getConversation (newConversationId env) result.2
     = Some {| conversationId := newConversationId env;
               title := chatTitle message;
               conversationCreatedAt := conversationDate env;
               conversationUpdatedAt := conversationDate env |}.
Proof.
  intros Hmessage Hfail result. subst result. unfold handleChat.
  assert (nonEmpty message = true) as ->.
  { unfold nonEmpty. apply negb_true_iff. by apply String.eqb_neq. }
  cbn [negb]. cbn [createConversation createMessage conversationId].
  match goal with
  | |- context [Routes.getNextApiKey ?d ?w ?t ?u ?st] =>
      pose proof (getNextApiKey_frame d w t u st) as [Hconv Hmsg];
      destruct (Routes.getNextApiKey d w t u st) as [info s3]
  end.
  rewrite getChatCompletion_no_answer by done.
  cbn [fst snd status json] in *.
  split; [done|]. split.
  - rewrite Hmsg. cbn [messages withMessages]. apply get_set_eq.
  - unfold getConversation. rewrite Hconv.
    cbn [conversations withMessages withConversations]. apply get_set_eq.
Qed.

Lemma getChatCompletion_Some env apiKey answer :
  getChatCompletion env apiKey = Some answer ->
  modelAnswer env = Some answer /\ answer <> ""%string.
Proof.
  unfold getChatCompletion. intros H.
  destruct (modelAnswer env) as [text|]; [|by repeat case_match].
  destruct (nonEmpty text) eqn:E; [|by repeat case_match].
  assert (text = answer) as -> by (repeat case_match; congruence).
  split; [done|]. unfold nonEmpty in E. apply negb_true_iff in E.
  by apply String.eqb_neq.
Qed.

Lemma updateConversation_messages id now newTitle s :
  messages (updateConversation id now newTitle s).2 = messages s.
Proof.
  unfold updateConversation.
  by destruct (JsMap.get id (conversations s)).
Qed.

(** X26 ([POST /api/chat]). A request answered with status 200 has
    stored the message of the user and the answer of the model, both in
    the conversation that the response names, and the response carries
    the identifier of the stored answer. *)
Theorem answered_chat_stores_both_messages env message wanted s response s' :
  userMessageId env <> aiMessageId env ->
  handleChat decryptKey env message wanted s = (response, s') ->
  status response = 200%nat ->
  exists answer conversation,
    body response = ChatBody answer conversation (aiMessageId env)
    /\ modelAnswer env = Some answer /\ answer <> ""%string
    /\ JsMap.get (userMessageId env) (messages s')
       = Some {| messageId := userMessageId env;
                 messageConversationId := conversation;
                 content := message; isUser := true;
                 messageCreatedAt := userMessageDate env |}
    /\ JsMap.get (aiMessageId env) (messages s')
       = Some {| messageId := aiMessageId env;
                 messageConversationId := conversation;
                 content := answer; isUser := false;
                 messageCreatedAt := aiMessageDate env |}.
Proof.
  intros Hfresh Hrun Hstatus. unfold handleChat in Hrun.
  destruct (negb (nonEmpty message));
    [injection Hrun as <- <-; discriminate Hstatus|].
  match type of Hrun with
  | match ?found with _ => _ end = _ =>
      destruct found as [[conversation s1]|] eqn:Hfound;
        [|injection Hrun as <- <-; discriminate Hstatus]
  end.
  clear Hfound. cbn [createMessage] in Hrun.
  match type of Hrun with
  | context [Routes.getNextApiKey ?d ?w ?t ?u ?st] =>
      pose proof (getNextApiKey_frame d w t u st) as [_ Hmsg];
      destruct (Routes.getNextApiKey d w t u st) as [info s3]
  end.
  cbn [snd] in Hmsg.
  destruct (getChatCompletion env (fst <$> info)) as [answer|] eqn:Hanswer;
    [|injection Hrun as <- <-; discriminate Hstatus].
  apply getChatCompletion_Some in Hanswer as [Hmodel Hne].
  match type of Hrun with
  | context [updateConversation ?i ?n ?t ?st] =>
      pose proof (updateConversation_messages i n t st) as Hupd;
      destruct (updateConversation i n t st) as [updated s5]
  end.
  cbn [snd] in Hupd. injection Hrun as <- <-.
  exists answer, (conversationId conversation).
  split; [done|]. split; [done|]. split; [done|].
  rewrite Hupd. cbn [messages withMessages]. rewrite Hmsg.
  cbn [messages withMessages]. split.
  - rewrite get_set_ne by done. apply get_set_eq.
  - apply get_set_eq.
Qed.

End Chat.

(** X23 (the title in [POST /api/chat]). The title of a new
    conversation has at most 50 characters: a message of up to 50
    characters is its own title, a longer one gives its first 47
    characters and three dots. *)
Theorem chat_title_at_most_50 message :
  (String.length (chatTitle message) <= 50)%nat
  /\ ((String.length message <= 50)%nat -> chatTitle message = message)
  /\ ((50 < String.length message)%nat ->
      String.length (chatTitle message) = 50%nat
      /\ exists start rest,
           message = start +:+ rest
           /\ String.length start = 47%nat
           /\ chatTitle message = start +:+ "...").
Proof.
  unfold chatTitle.
  destruct (50 <? String.length message)%nat eqn:E.
  - apply Nat.ltb_lt in E.
    assert (String.length (String.substring 0 47 message +:+ "...")
            = 50%nat) as Hlen.
    { rewrite length_append, substring_length.
      change (String.length "...") with 3%nat. lia. }
    split; [lia|]. split; [lia|]. intros _. split; [done|].
    destruct (substring_start message 47) as [rest Hrest].
    exists (String.substring 0 47 message), rest.
    split; [done|]. split; [|done]. rewrite substring_length. lia.
  - apply Nat.ltb_ge in E. split; [done|]. split; [done|lia].
Qed.

Lemma startsWith_append p rest : startsWith (p +:+ rest) p = true.
Proof.
  unfold startsWith. induction p as [|c p IH]; simpl.
  - by destruct rest.
  - change (String c p +:+ rest) with (String c (p +:+ rest)).
    cbn [String.prefix]. by destruct (ascii_dec c c).
Qed.

(** X24 (the audio URL in [POST /api/generate-tts]). An audio URL that
    is chosen always starts with [http://], [https://] or [data:]: it
    is a field of the answer that does, or the first text field wrapped
    as a data URL when that field has the shape of base64. *)
Theorem selected_audio_url_has_scheme fields url :
  selectAudioUrl fields = Some url ->
  isUrl url = true
  /\ (url ∈ audioCandidates fields
      \/ exists first others,
           audioCandidates fields = first :: others
           /\ url = "data:audio/mpeg;base64," +:+ first
           /\ matchesBase64 first = true
           /\ (String.length first `mod` 4 = 0)%nat).
Proof.
  unfold selectAudioUrl.
  destruct (JsArray.find isUrl (audioCandidates fields)) as [found|] eqn:Hf.
  - intros [= <-]. apply find_Some in Hf as [Hin Hurl]. auto.
  - destruct (audioCandidates fields) as [|first others]; [done|].
    destruct (matchesBase64 first) eqn:Hb; [|done].
    destruct (Nat.eqb (String.length first `mod` 4) 0) eqn:Hl; [|done].
    simpl. intros [= <-]. split.
    + unfold isUrl.
      change ("data:audio/mpeg;base64," +:+ first)
        with ("data:" +:+ ("audio/mpeg;base64," +:+ first)).
      rewrite startsWith_append. by rewrite !orb_true_r.
    + right. exists first, others. apply Nat.eqb_eq in Hl. done.
Qed.

(** ** The examples *)

(** The first call on [twoKeys] hands out the key never used. *)
Lemma next_key_is_least_recently_used_witness :
  exists key,
    JsMap.get "b" (apiKeys twoKeys) = Some key
    /\ provider key = "github"%string /\ isActive key = true
    /\ plainDecipher (keyValue key) = Some "secret-b"%string
    /\ "secret-b"%string <> ""%string
    /\ forall other,
         other ∈ JsMap.values (apiKeys twoKeys) ->
         provider other = "github"%string -> isActive other = true ->
         usedBefore key other.
Proof.
  apply (next_key_is_least_recently_used plainDecipher "github" 10 11
           twoKeys "secret-b" "b" (incrementApiKeyUsage "b" 10 11 twoKeys)
           twoKeys_consistent).
  vm_compute. reflexivity.
Defined.

Lemma next_key_marks_only_the_chosen_key_witness :
  (exists key key',
      JsMap.get "b" (apiKeys twoKeys) = Some key
      /\ JsMap.get "b" (apiKeys (incrementApiKeyUsage "b" 10 11 twoKeys))
         = Some key'
      /\ lastUsed key' = Some 10
      /\ keyValue key' = keyValue key
      /\ isActive key' = isActive key /\ provider key' = provider key)
  /\ (forall id', id' <> "b"%string ->
        JsMap.get id' (apiKeys (incrementApiKeyUsage "b" 10 11 twoKeys))
        = JsMap.get id' (apiKeys twoKeys))
  /\ conversations (incrementApiKeyUsage "b" 10 11 twoKeys)
     = conversations twoKeys
  /\ messages (incrementApiKeyUsage "b" 10 11 twoKeys) = messages twoKeys.
Proof.
  apply (next_key_marks_only_the_chosen_key plainDecipher "github" 10 11
           twoKeys "secret-b" "b" (incrementApiKeyUsage "b" 10 11 twoKeys)).
  vm_compute. reflexivity.
Defined.

(** After the key ["b"], the second call hands out the key ["a"]. *)
Lemma next_key_rotates_witness :
  (Routes.getNextApiKey plainDecipher "github" 20 21
     (incrementApiKeyUsage "b" 10 11 twoKeys)).1
  = Some ("secret-a", "a")%string
  /\ "a"%string <> "b"%string.
Proof.
  split; [vm_compute; reflexivity|].
  apply (next_key_rotates plainDecipher "github" 10 11 20 21 twoKeys
           "secret-b" "b" (incrementApiKeyUsage "b" 10 11 twoKeys)
           "secret-a" "a"
           (incrementApiKeyUsage "a" 20 21
              (incrementApiKeyUsage "b" 10 11 twoKeys))
           (exampleKey "a" (Some 5)) twoKeys_consistent).
  - vm_compute. reflexivity.
  - apply elem_of_getActiveApiKeys. split; [|split; reflexivity].
    apply elem_of_values. exists "a"%string. left.
  - discriminate.
  - intros used [= <-]. lia.
  - vm_compute. reflexivity.
Defined.

(** With a cipher that cannot decrypt, no key is ever handed out. *)
Lemma next_key_failure_is_permanent_witness :
  twoKeys = twoKeys
  /\ forall t' u',
       Routes.getNextApiKey (fun _ => None) "github" t' u' twoKeys
       = (None, twoKeys).
Proof.
  apply (next_key_failure_is_permanent (fun _ => None) "github" 1 1
           twoKeys twoKeys).
  vm_compute. reflexivity.
Defined.

(** A wrong password against the default one. *)
Lemma admin_routes_require_password_witness :
  (adminDeleteKey None "a" "guess" twoKeys).2 = twoKeys
  /\ status (adminDeleteKey None "a" "guess" twoKeys).1 = 401%nat.
Proof.
  destruct (admin_routes_require_password plainCipher None "guess" twoKeys)
    as (_ & _ & _ & Hdelete); [vm_compute; reflexivity|].
  destruct (Hdelete "a"%string) as (Hstore & _ & _).
  split; [exact Hstore|]. vm_compute. reflexivity.
Defined.

Lemma selected_audio_url_has_scheme_witness :
  isUrl "data:audio/mpeg;base64,QUJD" = true
  /\ ("data:audio/mpeg;base64,QUJD"%string
        ∈ audioCandidates [None; Some "QUJD"%string]
      \/ exists first others,
           audioCandidates [None; Some "QUJD"%string] = first :: others
           /\ "data:audio/mpeg;base64,QUJD"%string
              = "data:audio/mpeg;base64," +:+ first
           /\ matchesBase64 first = true
           /\ (String.length first `mod` 4 = 0)%nat).
Proof.
  apply (selected_audio_url_has_scheme [None; Some "QUJD"%string]).
  vm_compute. reflexivity.
Defined.

(** The model does not answer the first message of a conversation. *)
Lemma failed_chat_keeps_user_message_witness :
  let result :=
    handleChat plainDecipher (exampleChat None) "Hello" None empty in
  status result.1 = 500%nat
  /\ JsMap.get "m1" (messages result.2)
     = Some {| messageId := "m1"; messageConversationId := "c1";
               content := "Hello"; isUser := true; messageCreatedAt := 2 |}
  /\ getConversation "c1" result.2
     = Some {| conversationId := "c1"; title := chatTitle "Hello";
               conversationCreatedAt := 1; conversationUpdatedAt := 1 |}.
Proof.
  apply (failed_chat_keeps_user_message plainDecipher (exampleChat None)
           "Hello" empty).
  - discriminate.
  - reflexivity.
Defined.

(** The model answers, with a key of the store. *)
Lemma answered_chat_stores_both_messages_witness :
  exists answer conversation,
    body (handleChat plainDecipher (exampleChat (Some "Amen")) "Hello" None
            twoKeys).1
    = ChatBody answer conversation "m2"
    /\ modelAnswer (exampleChat (Some "Amen")) = Some answer
    /\ answer <> ""%string
    /\ JsMap.get "m1"
         (messages (handleChat plainDecipher (exampleChat (Some "Amen"))
                      "Hello" None twoKeys).2)
       = Some {| messageId := "m1"; messageConversationId := conversation;
                 content := "Hello"; isUser := true;
                 messageCreatedAt := 2 |}
    /\ JsMap.get "m2"
         (messages (handleChat plainDecipher (exampleChat (Some "Amen"))
                      "Hello" None twoKeys).2)
       = Some {| messageId := "m2"; messageConversationId := conversation;
                 content := answer; isUser := false;
                 messageCreatedAt := 5 |}.
Proof.
  apply (answered_chat_stores_both_messages plainDecipher
           (exampleChat (Some "Amen")) "Hello" None twoKeys).
  - discriminate.
  - vm_compute. reflexivity.
  - vm_compute. reflexivity.
Defined.

End RoutesFacts.
